(** * framefixer: the frame-slot scheduler of [framefixer.cpp]

    A shallow embedding of the scheduling core of framefixer (duplicate
    detection with a hysteretic threshold, the bounded buffer of distinct
    frames, the slot reallocation in the middle of the buffer, the drift
    correction) and the properties its specification states about it.

    Conventions of the embedding.
    - C++ [int] is [Z].  Every counter of the program is bounded by the number
      of frames of the input, which OpenCV itself reports as an [int], so no
      arithmetic of the program leaves the [int] range.
    - C++ [double] is Rocq's primitive binary64 [float]; [<] is [PrimFloat.ltb].
    - [cv::Mat] is the list of its samples; the empty [Mat] is [nil].
    - The OpenCV operations the program calls on images ([cvtColor] followed by
      [resize], and [absdiff] followed by [meanStdDev]) are parameters of the
      development: pure functions on images.
    - [std::list<Frame*>] is [list Frame]; the records are reached through the
      list only, so a pointer into the list is an index.
    - Undefined behaviour of the C++ program (dereferencing an iterator at or
      past [end()], [front()] or [back()] of an empty list) is the outcome
      [Undefined].
    - Loops whose number of rounds is not the length of a list take a bound on
      their rounds; running out of it is the outcome [Timeout] for the two
      loops of [main] ([main_no_timeout] shows it never happens), and for the
      loops on one record the bound is the number of rounds the loop condition
      allows ([fix_frame_unfold], [cut_one_units], [add_one_rounds]).
    - In comments, [it->count] stands for the count of the record the iterator
      [it] points to. *)

From Stdlib Require Import PrimFloat SpecFloat FloatOps FloatAxioms.
From Stdlib Require Import ZArith Lia Bool.
From Stdlib Require Uint63.
From Stdlib Require String.
From stdpp Require Import base option list sorting.

Local Open Scope Z_scope.

Abbreviation float := PrimFloat.float.

(** ** Data *)

Definition Mat := list Z.

(** [Mat::empty()] *)
Definition Mat_empty (m : Mat) : bool :=
  match m with [] => true | _ => false end.

(** [struct Frame] *)
Record Frame := mkFrame {
  data : Mat;
  comp : Mat;
  count : Z;
  priority : float;
  index : Z
}.

Definition set_count (c : Z) (f : Frame) : Frame :=
  mkFrame (data f) (comp f) c (priority f) (index f).

(** [class Threshold] *)
Record Threshold := mkThreshold {
  value : float;
  strict : float;
  relaxed : float
}.

Definition makeStrict (t : Threshold) : Threshold :=
  mkThreshold (strict t) (strict t) (relaxed t).

Definition makeRelaxed (t : Threshold) : Threshold :=
  mkThreshold (relaxed t) (strict t) (relaxed t).

(** The default [Threshold] object. *)
Definition default_THRESH : Threshold :=
  mkThreshold 0.5%float 0.5%float 0.25%float.

(** "Update global threshold if necessary" in [main]. *)
Definition update_THRESH (threshold_strict threshold_relaxed : float) : Threshold :=
  if PrimFloat.ltb 0%float threshold_strict then
    mkThreshold threshold_strict threshold_strict
      (if PrimFloat.ltb 0%float threshold_relaxed then threshold_relaxed
       else PrimFloat.mul 0.5%float threshold_strict)
  else default_THRESH.

(** The options of [main] the scheduler reads. *)
Record Config := mkConfig {
  buffer_size : Z;
  adjustment_bound : Z;
  duplicate_count : Z
}.

Definition default_Config : Config := mkConfig 7 5 2.

(** The globals of the program and the locals of [main], as one state.
    [CAP] is the rest of the input stream, [VIDEO] the frames written so far,
    oldest first. *)
Record State := mkState {
  CAP : list Mat;
  VIDEO : list Mat;
  THRESH : Threshold;
  WRITE_INDEX : Z;
  READ_INDEX : Z;
  FINISHED : bool;
  DRIFT : Z;
  buffer : list Frame;
  tempframe : Mat;
  compframe : Mat;
  stdev : float;
  full : bool;
  drift_update : Z
}.

Definition set_THRESH (t : Threshold) (s : State) : State :=
  mkState (CAP s) (VIDEO s) t (WRITE_INDEX s) (READ_INDEX s) (FINISHED s)
    (DRIFT s) (buffer s) (tempframe s) (compframe s) (stdev s) (full s)
    (drift_update s).

Definition set_FINISHED (b : bool) (s : State) : State :=
  mkState (CAP s) (VIDEO s) (THRESH s) (WRITE_INDEX s) (READ_INDEX s) b
    (DRIFT s) (buffer s) (tempframe s) (compframe s) (stdev s) (full s)
    (drift_update s).

Definition set_DRIFT (d : Z) (s : State) : State :=
  mkState (CAP s) (VIDEO s) (THRESH s) (WRITE_INDEX s) (READ_INDEX s)
    (FINISHED s) d (buffer s) (tempframe s) (compframe s) (stdev s) (full s)
    (drift_update s).

Definition set_buffer (b : list Frame) (s : State) : State :=
  mkState (CAP s) (VIDEO s) (THRESH s) (WRITE_INDEX s) (READ_INDEX s)
    (FINISHED s) (DRIFT s) b (tempframe s) (compframe s) (stdev s) (full s)
    (drift_update s).

Definition set_compframe (m : Mat) (s : State) : State :=
  mkState (CAP s) (VIDEO s) (THRESH s) (WRITE_INDEX s) (READ_INDEX s)
    (FINISHED s) (DRIFT s) (buffer s) (tempframe s) m (stdev s) (full s)
    (drift_update s).

Definition set_stdev (x : float) (s : State) : State :=
  mkState (CAP s) (VIDEO s) (THRESH s) (WRITE_INDEX s) (READ_INDEX s)
    (FINISHED s) (DRIFT s) (buffer s) (tempframe s) (compframe s) x (full s)
    (drift_update s).

Definition set_full (b : bool) (s : State) : State :=
  mkState (CAP s) (VIDEO s) (THRESH s) (WRITE_INDEX s) (READ_INDEX s)
    (FINISHED s) (DRIFT s) (buffer s) (tempframe s) (compframe s) (stdev s) b
    (drift_update s).

Definition set_drift_update (d : Z) (s : State) : State :=
  mkState (CAP s) (VIDEO s) (THRESH s) (WRITE_INDEX s) (READ_INDEX s)
    (FINISHED s) (DRIFT s) (buffer s) (tempframe s) (compframe s) (stdev s)
    (full s) d.

(** [vidin >> frame; READ_INDEX++]: the next frame of the stream, or an empty
    [Mat] when there is none. *)
Definition grab (s : State) : State :=
  mkState (tail (CAP s)) (VIDEO s) (THRESH s) (WRITE_INDEX s) (READ_INDEX s + 1)
    (FINISHED s) (DRIFT s) (buffer s) (hd [] (CAP s)) (compframe s) (stdev s)
    (full s) (drift_update s).

(** [vidout.write(frame); WRITE_INDEX++] *)
Definition put (frame : Mat) (s : State) : State :=
  mkState (CAP s) (VIDEO s ++ [frame]) (THRESH s) (WRITE_INDEX s + 1)
    (READ_INDEX s) (FINISHED s) (DRIFT s) (buffer s) (tempframe s)
    (compframe s) (stdev s) (full s) (drift_update s).

(** ** Outcomes *)

Inductive result (A : Type) : Type :=
  | Ok (a : A)
  | Undefined
  | Timeout.
Arguments Ok {A} a.
Arguments Undefined {A}.
Arguments Timeout {A}.

#[global] Instance result_ret : MRet result := fun A a => Ok a.
#[global] Instance result_bind : MBind result := fun A B k r =>
  match r with
  | Ok a => k a
  | Undefined => Undefined
  | Timeout => Timeout
  end.

(** How the process ends: its exit status and what the output holds. *)
Record Exit := mkExit {
  status : Z;
  output : list Mat
}.

(** [signal_handler]: sets [FINISHED], releases the devices and leaves through
    [exit(1)]; control never comes back to [main]. *)
Definition signal_handler (s : State) : State * Exit :=
  let s1 := set_FINISHED true s in
  (s1, mkExit 1 (VIDEO s1)).

(** ** The buffer as the program walks it *)

(** The body of [for (it = buffer.rbegin(); it != buffer.rend(); it++)
    if (p(it)) { ...; break; }]: the position, counted from the front, of the
    record the scan stops at.  The recursion settles the tail of the list
    before its head, which is the order of the reverse iterator. *)
Fixpoint rscan (p : Frame -> bool) (l : list Frame) : option nat :=
  match l with
  | [] => None
  | x :: r =>
      match rscan p r with
      | Some j => Some (S j)
      | None => if p x then Some O else None
      end
  end.

(** [buffer.back()->...] updated in place. *)
Fixpoint on_back (f : Frame -> Frame) (l : list Frame) : list Frame :=
  match l with
  | [] => []
  | [x] => [f x]
  | x :: r => x :: on_back f r
  end.

(** [it->count--; tofix->count++;] with the record of [it] at position [j] and
    [tofix] at position [i]: two updates of the same list, one after the other. *)
Definition transfer (j i : nat) (l : list Frame) : list Frame :=
  alter (fun f => set_count (count f + 1) f) i
    (alter (fun f => set_count (count f - 1) f) j l).

(** The first inner loop of the adjustment: a record above the goal. *)
Definition safe_donor (dup : Z) (l : list Frame) : option nat :=
  rscan (fun f => dup <? count f) l.

(** The second inner loop: a record of lower priority that is written more
    than once. *)
Definition priority_donor (p : float) (l : list Frame) : option nat :=
  rscan (fun f => (priority f <? p)%float && (1 <? count f)) l.

(** [while (fixing && tofix->count < duplicate_count)], [tofix] at position
    [i].  [fixing] is true on entry, and false after a round exactly when
    neither inner loop found a record, which ends the loop. *)
Fixpoint fix_loop (fuel : nat) (dup : Z) (i : nat) (l : list Frame) : list Frame :=
  match fuel with
  | O => l
  | S k =>
      match l !! i with
      | None => l
      | Some tofix =>
          if count tofix <? dup then
            match safe_donor dup l with
            | Some j => fix_loop k dup i (transfer j i l)
            | None =>
                match priority_donor (priority tofix) l with
                | Some j => fix_loop k dup i (transfer j i l)
                | None => l
                end
            end
          else l
      end
  end.

(** The adjustment of the record at position [i]: each round raises its count
    by one, so [duplicate_count - count] rounds are all the loop can make. *)
Definition fix_frame (dup : Z) (i : nat) (l : list Frame) : list Frame :=
  match l !! i with
  | None => l
  | Some tofix => fix_loop (Z.to_nat (dup - count tofix)) dup i l
  end.

(** [while (it->count > duplicate_count) { it->count--; DRIFT--;
    if (DRIFT < adjustment_bound) break; }] on one record: its count and the
    drift afterwards. *)
Fixpoint cut_one (fuel : nat) (dup bound c drift : Z) : Z * Z :=
  match fuel with
  | O => (c, drift)
  | S k =>
      if dup <? c then
        if drift - 1 <? bound then (c - 1, drift - 1)
        else cut_one k dup bound (c - 1) (drift - 1)
      else (c, drift)
  end.

(** [for (it = buffer.begin(); DRIFT >= adjustment_bound && it != buffer.end();
    it++)] around [cut_one]. *)
Fixpoint cut_frames (dup bound : Z) (l : list Frame) (drift : Z) : list Frame * Z :=
  match l with
  | [] => ([], drift)
  | f :: r =>
      if bound <=? drift then
        let '(c, d) := cut_one (Z.to_nat (count f - dup)) dup bound (count f) drift in
        let '(r', d') := cut_frames dup bound r d in
        (set_count c f :: r', d')
      else (l, drift)
  end.

(** [while (it->count < duplicate_count) { it->count++; DRIFT++;
    if (abs(DRIFT) < adjustment_bound) break; }] on one record. *)
Fixpoint add_one (fuel : nat) (dup bound c drift : Z) : Z * Z :=
  match fuel with
  | O => (c, drift)
  | S k =>
      if c <? dup then
        if Z.abs (drift + 1) <? bound then (c + 1, drift + 1)
        else add_one k dup bound (c + 1) (drift + 1)
      else (c, drift)
  end.

(** [for (it = buffer.begin(); abs(DRIFT) >= adjustment_bound &&
    it != buffer.end(); it++)] around [add_one]. *)
Fixpoint add_frames (dup bound : Z) (l : list Frame) (drift : Z) : list Frame * Z :=
  match l with
  | [] => ([], drift)
  | f :: r =>
      if bound <=? Z.abs drift then
        let '(c, d) := add_one (Z.to_nat (dup - count f)) dup bound (count f) drift in
        let '(r', d') := add_frames dup bound r d in
        (set_count c f :: r', d')
      else (l, drift)
  end.

(** [writeFrames]: [frame] is written [count] times; the caller's [count] is
    left at zero, or as it was when it was not positive. *)
Fixpoint writeFrames_loop (n : nat) (frame : Mat) (s : State) : State :=
  match n with
  | O => s
  | S k => writeFrames_loop k frame (put frame s)
  end.

Definition writeFrames (frame : Mat) (c : Z) (s : State) : State :=
  writeFrames_loop (Z.to_nat c) frame s.

(** The cleanup stage of [main]: every record of the buffer, front to back. *)
Fixpoint flush (l : list Frame) (s : State) : State :=
  match l with
  | [] => s
  | f :: r => flush r (writeFrames (data f) (count f) s)
  end.

Section Scheduler.

(** [cvtColor] to gray followed by [resize] to the comparison size. *)
Variable toComp : Mat -> Mat.
(** [absdiff] followed by [meanStdDev], first channel. *)
Variable stdevAbsdiff : Mat -> Mat -> float.

Variable cfg : Config.

(** [matchFrames]: it reads the global [THRESH], leaves the score in the
    [stdev] of its caller (a reference parameter) and returns the decision. *)
Definition matchFrames (a b : Mat) (s : State) : bool * State :=
  let s1 := set_stdev (stdevAbsdiff a b) s in
  ((stdev s1 <? value (THRESH s1))%float, s1).

(** [readFrame] *)
Definition readFrame (s : State) : bool * State :=
  let s1 := grab s in
  if Mat_empty (tempframe s1) then (false, s1)
  else (true, set_compframe (toComp (tempframe s1)) s1).

(** [new Frame()] filled from [tempframe], [compframe], [stdev] and
    [READ_INDEX], with [count = 1]. *)
Definition new_Frame (s : State) : Frame :=
  mkFrame (tempframe s) (compframe s) 1 (stdev s) (READ_INDEX s).

(** One round of [while (!full)]. *)
Definition fill_step (s : State) : result State :=
  let '(ok, s1) := readFrame s in
  if ok then
    match last (buffer s1) with
    | None => Undefined
    | Some back =>
        let '(m, s2) := matchFrames (comp back) (compframe s1) s1 in
        if m then
          let s3 := set_buffer
                      (on_back (fun f => set_count (count f + 1) f) (buffer s2)) s2 in
          if count back + 1 =? duplicate_count cfg
          then Ok (set_THRESH (makeRelaxed (THRESH s3)) s3)
          else Ok s3
        else
          let s3 := set_THRESH (makeStrict (THRESH s2)) s2 in
          if Z.of_nat (length (buffer s3)) <? buffer_size cfg
          then Ok (set_buffer (buffer s3 ++ [new_Frame s3]) s3)
          else Ok (set_full true s3)
    end
  else Ok (set_FINISHED true (set_full true s1)).

(** [while (!full)] *)
Fixpoint filling (fuel : nat) (s : State) : result State :=
  if full s then Ok s
  else
    match fuel with
    | O => Timeout
    | S k => s' ← fill_step s; filling k s'
    end.

(** [drift_update--; if (drift_update <= 0) { ... }] *)
Definition drift_check (s : State) : result State :=
  let s1 := set_drift_update (drift_update s - 1) s in
  if drift_update s1 <=? 0 then
    match buffer s1 with
    | [] => Undefined
    | front :: _ =>
        Ok (set_drift_update (buffer_size cfg)
              (set_DRIFT (WRITE_INDEX s1 - index front) s1))
    end
  else Ok s1.

(** The three branches on [DRIFT]: adjust the record in the middle, cut, or
    add. *)
Definition correcting (s : State) : result State :=
  if Z.abs (DRIFT s) <? adjustment_bound cfg then
    let i := Z.to_nat (Z.quot (buffer_size cfg) 2) in
    match buffer s !! i with
    | None => Undefined
    | Some _ => Ok (set_buffer (fix_frame (duplicate_count cfg) i (buffer s)) s)
    end
  else if adjustment_bound cfg <=? DRIFT s then
    let '(l, d) := cut_frames (duplicate_count cfg) (adjustment_bound cfg)
                     (buffer s) (DRIFT s) in
    Ok (set_DRIFT d (set_buffer l s))
  else
    let '(l, d) := add_frames (duplicate_count cfg) (adjustment_bound cfg)
                     (buffer s) (DRIFT s) in
    Ok (set_DRIFT d (set_buffer l s)).

(** "write first frame" down to the [push_back] that ends the round. *)
Definition evict (s : State) : result State :=
  match buffer s with
  | [] => Undefined
  | front :: rest =>
      let s1 := writeFrames (data front) (count front) s in
      let s2 := set_full false (set_buffer rest s1) in
      Ok (set_buffer (buffer s2 ++ [new_Frame s2]) s2)
  end.

(** One round of [while (!FINISHED)]. *)
Definition cycle (s : State) : result State :=
  s1 ← filling (S (length (CAP s))) s;
  s2 ← drift_check s1;
  s3 ← correcting s2;
  evict s3.

(** [while (!FINISHED)] *)
Fixpoint main_loop (fuel : nat) (s : State) : result State :=
  if FINISHED s then Ok s
  else
    match fuel with
    | O => Timeout
    | S k => s' ← cycle s; main_loop k s'
    end.

(** The state [main] starts its loops in. *)
Definition boot (t : Threshold) (src : list Mat) : State :=
  mkState src [] t 0 (-1) false 0 [] [] [] 0%float false 0.

(** The state after the first frame was read and entered in the buffer. *)
Definition first_frame (s : State) : State :=
  set_buffer (buffer s ++ [new_Frame s]) s.

(** [main] from "Prepare for main loop" to the end of the cleanup stage. *)
Definition main_state (t : Threshold) (src : list Mat) : result State :=
  let '(ok, s1) := readFrame (boot t src) in
  s2 ← (if ok then main_loop (S (length (CAP s1))) (first_frame s1) else Ok s1);
  let s3 := set_FINISHED true s2 in
  Ok (set_buffer [] (flush (buffer s3) s3)).

(** [main] from "Prepare for main loop" on: it returns 0 once the cleanup
    stage is over.  The returns of [main] before that point (1 from the
    argument handling, -1 when the input does not open) are not part of this
    definition. *)
Definition main (t : Threshold) (src : list Mat) : result Exit :=
  s ← main_state t src; Ok (mkExit 0 (VIDEO s)).

End Scheduler.

(** ** An instance of the image operations

    The theorems below hold for every choice of the two image operations.
    Where a run of the program on concrete frames is evaluated, comparison
    images are the frames themselves and the score is the standard deviation of
    the absolute difference of the two sample lists, the quantity [meanStdDev]
    documents: [sqrt (n * sum d^2 - (sum d)^2) / n], in binary64. *)

Definition of_Z (z : Z) : float := PrimFloat.of_uint63 (Uint63.of_Z z).

Fixpoint absdiff (a b : Mat) : list Z :=
  match a, b with
  | x :: a', y :: b' => Z.abs (x - y) :: absdiff a' b'
  | _, _ => []
  end.

Definition Zsum (l : list Z) : Z := foldr Z.add 0 l.

Definition sample_stdev (a b : Mat) : float :=
  let d := absdiff a b in
  let n := Z.of_nat (length d) in
  let s1 := Zsum d in
  let s2 := Zsum (map (fun x => x * x) d) in
  (PrimFloat.sqrt (of_Z (n * s2 - s1 * s1)) / of_Z n)%float.

Definition sample_toComp (m : Mat) : Mat := m.

(** ** The slot reallocation as the specification words it

    One round moves one unit to the record at position [i] from a donor: the
    record nearest the tail that is above the goal or, when there is none, the
    record nearest the tail of strictly lower priority that is written more than
    once.  Rounds repeat until the record is at the goal or no round can be
    made. *)

(** [j] is the position nearest the tail whose record satisfies [P]. *)
Definition nearest_tail (P : Frame -> Prop) (l : list Frame) (j : nat) : Prop :=
  exists d, l !! j = Some d /\ P d /\
    forall k y, (j < k)%nat -> l !! k = Some y -> ~ P y.

(** One unit went from position [j] to position [i]; nothing else changed. *)
Definition moved_unit (j i : nat) (l l' : list Frame) : Prop :=
  j <> i /\
  (exists d, l !! j = Some d /\ l' !! j = Some (set_count (count d - 1) d)) /\
  (exists t, l !! i = Some t /\ l' !! i = Some (set_count (count t + 1) t)) /\
  forall k, k <> i -> k <> j -> l' !! k = l !! k.

Inductive spec_round (dup : Z) (i : nat) (l l' : list Frame) : Prop :=
  | safe_pass (j : nat) :
      nearest_tail (fun d => dup < count d) l j ->
      moved_unit j i l l' ->
      spec_round dup i l l'
  | priority_pass (j : nat) (t : Frame) :
      l !! i = Some t ->
      (forall j', ~ nearest_tail (fun d => dup < count d) l j') ->
      nearest_tail
        (fun d => (priority d <? priority t)%float = true /\ 1 < count d) l j ->
      moved_unit j i l l' ->
      spec_round dup i l l'.

Inductive spec_realloc (dup : Z) (i : nat) : list Frame -> list Frame -> Prop :=
  | realloc_reached (l : list Frame) (t : Frame) :
      l !! i = Some t -> dup <= count t -> spec_realloc dup i l l
  | realloc_stuck (l : list Frame) (t : Frame) :
      l !! i = Some t -> count t < dup ->
      (forall l', ~ spec_round dup i l l') ->
      spec_realloc dup i l l
  | realloc_move (l l' l'' : list Frame) (t : Frame) :
      l !! i = Some t -> count t < dup ->
      spec_round dup i l l' ->
      spec_realloc dup i l' l'' ->
      spec_realloc dup i l l''.

(** ** The cut of the drift controller as the specification words it

    Head to tail, each record above [duplicate_count] gives up units, one off
    the drift for each, until the drift is below the bound: a record gives the
    smaller of what it has above the goal and what the drift still needs. *)

Fixpoint spec_cut (dup bound : Z) (l : list Frame) (drift : Z) : list Frame * Z :=
  match l with
  | [] => ([], drift)
  | f :: r =>
      let units := Z.min (Z.max 0 (count f - dup)) (Z.max 0 (drift - bound + 1)) in
      let '(r', d') := spec_cut dup bound r (drift - units) in
      (set_count (count f - units) f :: r', d')
  end.

(** The number of frames a buffer stands for. *)
Definition total (l : list Frame) : Z := Zsum (map count l).

(** ** States for the scenarios of the specification *)

(** A record written once in the middle of a buffer of three, its neighbours
    written twice, both of lower priority. *)
Definition scenarioB : State :=
  mkState [] [] default_THRESH 0 4 false 0
    [mkFrame [10; 10] [10; 10] 2 0%float 0;
     mkFrame [10; 200] [10; 200] 1 82.5%float 2;
     mkFrame [90; 10] [90; 10] 2 67.25%float 3]
    [0; 250] [0; 250] 90%float true 3.

(** The drift at 7, with two records above [duplicate_count]. *)
Definition scenarioC : State :=
  mkState [] [] default_THRESH 27 24 false 7
    [mkFrame [10; 10] [10; 10] 3 0%float 20;
     mkFrame [10; 200] [10; 200] 2 82.5%float 21;
     mkFrame [90; 10] [90; 10] 4 67.25%float 22;
     mkFrame [0; 250] [0; 250] 2 95%float 23]
    [0; 0] [0; 0] 90%float true 3.

(** ** The states of a run

    [reachable] holds of the state after the first frame was entered and of
    every state an operation of the main loop leads to from there: one round
    of the filling loop, the drift check, one transfer of the adjustment, the
    correction as a whole, and the eviction with the entry of the frame read
    last.  The operations are not ordered here, so the relation holds of more
    states than a run goes through; [cycle_reachable] and
    [main_loop_reachable] show it holds of those. *)

Definition window_ok (cfg : Config) (s : State) : Prop :=
  Z.of_nat (length (buffer s)) <= buffer_size cfg /\
  Forall (fun f => 1 <= count f) (buffer s).

Section Reachable.

Variable toComp : Mat -> Mat.
Variable stdevAbsdiff : Mat -> Mat -> float.
Variable cfg : Config.
Variable t : Threshold.
Variable src : list Mat.

Inductive reachable : State -> Prop :=
  | reach_first (s1 : State) :
      readFrame toComp (boot t src) = (true, s1) ->
      reachable (first_frame s1)
  | reach_fill (s s' : State) :
      reachable s -> full s = false ->
      fill_step toComp stdevAbsdiff cfg s = Ok s' ->
      reachable s'
  | reach_drift (s s' : State) :
      reachable s -> full s = true ->
      drift_check cfg s = Ok s' ->
      reachable s'
  | reach_transfer (s : State) (j : nat) (tofix : Frame) :
      reachable s -> full s = true ->
      buffer s !! Z.to_nat (Z.quot (buffer_size cfg) 2) = Some tofix ->
      count tofix < duplicate_count cfg ->
      (safe_donor (duplicate_count cfg) (buffer s) = Some j \/
       (safe_donor (duplicate_count cfg) (buffer s) = None /\
        priority_donor (priority tofix) (buffer s) = Some j)) ->
      reachable
        (set_buffer (transfer j (Z.to_nat (Z.quot (buffer_size cfg) 2)) (buffer s)) s)
  | reach_correct (s s' : State) :
      reachable s -> full s = true ->
      correcting cfg s = Ok s' ->
      reachable s'
  | reach_evict (s s' : State) :
      reachable s -> full s = true ->
      evict s = Ok s' ->
      reachable s'.

End Reachable.

(** What the drift check and the correction leave alone: everything but
    [DRIFT], [drift_update] and the buffer. *)
Definition same_io (s s' : State) : Prop :=
  CAP s' = CAP s /\ VIDEO s' = VIDEO s /\ THRESH s' = THRESH s /\
  WRITE_INDEX s' = WRITE_INDEX s /\ READ_INDEX s' = READ_INDEX s /\
  FINISHED s' = FINISHED s /\ tempframe s' = tempframe s /\
  compframe s' = compframe s /\ stdev s' = stdev s /\ full s' = full s.

(** The output agrees with the count of frames written. *)
Definition write_ok (s : State) : Prop :=
  WRITE_INDEX s = Z.of_nat (length (VIDEO s)).

(** ** Concrete runs *)

(** Frames of four samples.  Under [sample_stdev] two different frames among
    [frameA] ... [frameE] score far above the strict threshold; [frameA] and
    [frameA'] score between the relaxed and the strict one (0.433...). *)
Definition frameA : Mat := [10; 10; 10; 10].
Definition frameA' : Mat := [10; 11; 10; 10].
Definition frameB : Mat := [10; 200; 10; 10].
Definition frameC : Mat := [90; 10; 10; 100].
Definition frameD : Mat := [0; 0; 250; 0].
Definition frameE : Mat := [0; 100; 250; 0].

(** The first [n] rounds of the filling loop. *)
Fixpoint fill_n (toComp : Mat -> Mat) (stdevAbsdiff : Mat -> Mat -> float)
    (cfg : Config) (n : nat) (s : State) : result State :=
  match n with
  | O => Ok s
  | S k =>
      if full s then Ok s
      else (s' ← fill_step toComp stdevAbsdiff cfg s;
            fill_n toComp stdevAbsdiff cfg k s')
  end.

(** The state [main] is in after the first frame of [src]. *)
Definition started (toComp : Mat -> Mat) (t : Threshold) (src : list Mat) : State :=
  first_frame (readFrame toComp (boot t src)).2.

(** A run interrupted with four records in the buffer, written 2, 1, 3 and 2
    times, and two frames still to read. *)
Definition srcD : list Mat :=
  [frameA; frameA; frameB; frameC; frameC; frameC; frameD; frameD; frameE; frameE].

Definition scenarioD : State :=
  Eval vm_compute in
    match fill_n sample_toComp sample_stdev default_Config 7
            (started sample_toComp default_THRESH srcD) with
    | Ok s => s
    | _ => boot default_THRESH []
    end.

(** A run with a buffer of two at the end of its first filling: two records
    in the buffer, and a third frame read and waiting to be entered. *)
Definition srcE : list Mat := [frameA; frameA; frameB; frameC; frameD].

Definition scenarioE : State :=
  Eval vm_compute in
    match fill_n sample_toComp sample_stdev (mkConfig 2 5 2) 4
            (started sample_toComp default_THRESH srcE) with
    | Ok s => s
    | _ => boot default_THRESH []
    end.

(** The cancellation as the specification words it: the records of the buffer
    go to the output at their counts, and the process ends without error. *)
Definition cancel_flushes (s : State) : Prop :=
  output (signal_handler s).2 = VIDEO (flush (buffer s) s) /\
  status (signal_handler s).2 = 0.

(** The threshold in force against the record that is open, the last of the
    buffer: relaxed once its count is at [duplicate_count], strict before. *)
Definition hysteresis (cfg : Config) (t : Threshold) (s : State) : Prop :=
  exists open, last (buffer s) = Some open /\
    value (THRESH s) =
      if duplicate_count cfg <=? count open then relaxed t else strict t.

(** While the stream lasts: the two settings are those the run started with;
    between two rounds of the filling loop the threshold follows the count of
    the open record; and once the buffer is full (a frame failed to match and
    waits for the eviction to be entered) the threshold is the strict one. *)
Definition threshold_ok (cfg : Config) (t : Threshold) (s : State) : Prop :=
  strict (THRESH s) = strict t /\ relaxed (THRESH s) = relaxed t /\
  (FINISHED s = false ->
   if full s then value (THRESH s) = strict t else hysteresis cfg t s).

(** The first filling of the buffer, on a stream of [n] frames: nothing was
    written, the front record is the first frame of the stream, and the buffer
    holds no more records than frames were read. *)
Definition first_filling (n : nat) (s : State) : Prop :=
  WRITE_INDEX s = 0 /\ drift_update s = 0 /\
  (exists front rest, buffer s = front :: rest /\ index front = 0) /\
  (length (buffer s) + length (CAP s) <= n)%nat /\
  Forall (fun m => Mat_empty m = false) (CAP s).

(** ** The raise of the drift controller, in closed form

    Head to tail, each record below [duplicate_count] takes units, one onto
    the drift for each, until the drift is within the bound: a record takes
    the smaller of what it lacks and what the drift still needs. *)

Fixpoint spec_add (dup bound : Z) (l : list Frame) (drift : Z) : list Frame * Z :=
  match l with
  | [] => ([], drift)
  | f :: r =>
      let units := Z.min (Z.max 0 (dup - count f)) (Z.max 0 (- bound + 1 - drift)) in
      let '(r', d') := spec_add dup bound r (drift + units) in
      (set_count (count f + units) f :: r', d')
  end.

(** A record without its count. *)
Definition uncounted (f : Frame) : Frame := set_count 0 f.

(** ** The output as a schedule of the stream *)

(** The frame of the stream at position [i], and the empty image past its
    end. *)
Definition frame_at (src : list Mat) (i : Z) : Mat := nth (Z.to_nat i) src [].

(** The images a schedule stands for: for each of its entries, a position of
    the stream and a count, the frame at that position as many times. *)
Definition render (src : list Mat) (sched : list (Z * Z)) : list Mat :=
  concat (map (fun p => replicate (Z.to_nat p.2) (frame_at src p.1)) sched).

(** What a record asks of the output. *)
Definition entry (f : Frame) : Z * Z := (index f, count f).

(** A record holds the frame of the stream at its index. *)
Definition at_index (src : list Mat) (f : Frame) : Prop :=
  0 <= index f /\ data f = frame_at src (index f).

(** The run so far, against the stream [src]: the frames up to [READ_INDEX]
    were read and the last of them is in [tempframe]; every record holds the
    frame at its index; the output is a schedule, and the positions of the
    schedule followed by the indices of the buffer go strictly up, all of them
    at or below [READ_INDEX], and below it once the filling has ended. *)
Definition in_order (src : list Mat) (s : State) : Prop :=
  0 <= READ_INDEX s /\
  CAP s = drop (Z.to_nat (READ_INDEX s + 1)) src /\
  tempframe s = frame_at src (READ_INDEX s) /\
  Forall (at_index src) (buffer s) /\
  exists sched,
    VIDEO s = render src sched /\
    Forall (fun p => 0 <= p.1) sched /\
    StronglySorted Z.lt (map fst sched ++ map index (buffer s)) /\
    Forall (fun i => if full s then i < READ_INDEX s else i <= READ_INDEX s)
      (map fst sched ++ map index (buffer s)).

(** ** The start of [main]: options, comparison size, codec *)

(** A [double] assigned to an [int]: the value without its fraction; the
    conversion is undefined when that is no [int], and for infinities and
    NaN. *)
Definition double_to_int (x : float) : option Z :=
  match Prim2SF x with
  | S754_zero _ => Some 0
  | S754_finite sg m e =>
      let mag := if 0 <=? e then Zpos m * 2 ^ e else Zpos m / 2 ^ (- e) in
      let z := if sg then - mag else mag in
      if (- 2 ^ 31 <=? z) && (z <? 2 ^ 31) then Some z else None
  | _ => None
  end.

(** [COMP_WIDTH = frame_width/comparison_scale] and the same for the height:
    a division of [int]s, undefined by zero. *)
Definition comparison_size (frame_size comparison_scale : Z) : option Z :=
  if comparison_scale =? 0 then None else Some (Z.quot frame_size comparison_scale).

(** The four characters [main] formats the codec code into:
    [fcc & 255], [(fcc >> 8) & 255], [(fcc >> 16) & 255], [(fcc >> 24) & 255]. *)
Definition fourcc_chars (fcc : Z) : Z * Z * Z * Z :=
  (Z.land fcc 255, Z.land (Z.shiftr fcc 8) 255,
   Z.land (Z.shiftr fcc 16) 255, Z.land (Z.shiftr fcc 24) 255).

Module Args.

Import String.
Local Open Scope string_scope.

(** The option variables of [main], with the values they are declared with. *)
Record options := mkOptions {
  buffer_size : Z;
  comparison_scale : Z;
  adjustment_bound : Z;
  duplicate_count : Z;
  threshold_strict : float;
  threshold_relaxed : float
}.

Definition defaults : options := mkOptions 7 4 5 2 (-1)%float (-1)%float.

(** The chain of [if (arg == ...) ... = val;]: the four [int] options take
    the value through the conversion, the two thresholds as it is, and a name
    that is none of the six changes nothing. *)
Definition assign (arg : string) (val : float) (o : options) : result options :=
  let to_int (k : Z -> options) : result options :=
    match double_to_int val with
    | Some z => Ok (k z)
    | None => Undefined
    end in
  if arg =? "-buffer_size" then
    to_int (fun z => mkOptions z (comparison_scale o) (adjustment_bound o)
                       (duplicate_count o) (threshold_strict o) (threshold_relaxed o))
  else if arg =? "-comparison_scale" then
    to_int (fun z => mkOptions (buffer_size o) z (adjustment_bound o)
                       (duplicate_count o) (threshold_strict o) (threshold_relaxed o))
  else if arg =? "-adjustment_bound" then
    to_int (fun z => mkOptions (buffer_size o) (comparison_scale o) z
                       (duplicate_count o) (threshold_strict o) (threshold_relaxed o))
  else if arg =? "-duplicate_count" then
    to_int (fun z => mkOptions (buffer_size o) (comparison_scale o)
                       (adjustment_bound o) z (threshold_strict o) (threshold_relaxed o))
  else if arg =? "-threshold_strict" then
    Ok (mkOptions (buffer_size o) (comparison_scale o) (adjustment_bound o)
          (duplicate_count o) val (threshold_relaxed o))
  else if arg =? "-threshold_relaxed" then
    Ok (mkOptions (buffer_size o) (comparison_scale o) (adjustment_bound o)
          (duplicate_count o) (threshold_strict o) val)
  else Ok o.

(** [for (int i = 3; i < argc; i++)] over the arguments after the two file
    names.  [scan] is [sscanf] with ["%lf"]: the number a string starts with,
    if it starts with one.  [val] is what the variable [val] holds: nothing
    before the first number was read, and the number read last afterwards, as
    a string that is no number leaves it alone.  A name with no string after
    it has [sscanf] read [argv[argc]], a null pointer; a first value that is no
    number has [val] read before it was ever written. *)
Fixpoint options_loop (scan : string -> option float) (args : list string)
    (val : option float) (o : options) : result options :=
  match args with
  | [] => Ok o
  | [_] => Undefined
  | arg :: text :: rest =>
      let val' := match scan text with Some x => Some x | None => val end in
      match val' with
      | None => Undefined
      | Some x =>
          if (x <=? 0)%float then options_loop scan rest val' o
          else o' ← assign arg x o; options_loop scan rest val' o'
      end
  end.

(** How [main] starts: with the usage text and 1 for fewer than two file
    names, and else with the two names and the options. *)
Inductive start : Type :=
  | Usage
  | Run (input output : string) (o : options).

Definition arguments (scan : string -> option float) (argv : list string)
    : result start :=
  match argv with
  | _ :: input :: output :: rest =>
      o ← options_loop scan rest None defaults; Ok (Run input output o)
  | _ => Ok Usage
  end.

(** What the scheduler is run with. *)
Definition config (o : options) : Config :=
  mkConfig (buffer_size o) (adjustment_bound o) (duplicate_count o).

Definition threshold (o : options) : Threshold :=
  update_THRESH (threshold_strict o) (threshold_relaxed o).

(** The four [int] options are [int]s at or above zero. *)
Definition non_negative (o : options) : Prop :=
  (0 <= buffer_size o < 2 ^ 31)%Z /\ (0 <= comparison_scale o < 2 ^ 31)%Z /\
  (0 <= adjustment_bound o < 2 ^ 31)%Z /\ (0 <= duplicate_count o < 2 ^ 31)%Z.

(** The names of a command line: every other argument. *)
Fixpoint names (args : list string) : list string :=
  match args with
  | arg :: _ :: rest => arg :: names rest
  | _ => []
  end.

(** A reading of numbers for the examples: it knows two strings. *)
Definition sample_scan (text : string) : option float :=
  if text =? "9" then Some 9%float
  else if text =? "0.5" then Some 0.5%float
  else None.

End Args.

(** * Properties *)

(** Projections of updated states. *)
Tactic Notation "state_simpl" :=
  cbn [CAP VIDEO THRESH WRITE_INDEX READ_INDEX FINISHED DRIFT buffer tempframe
       compframe stdev full drift_update set_THRESH set_FINISHED set_DRIFT
       set_buffer set_compframe set_stdev set_full set_drift_update grab put
       value strict relaxed makeStrict makeRelaxed count data comp priority
       index set_count new_Frame first_frame].
Tactic Notation "state_simpl" "in" hyp(H) :=
  cbn [CAP VIDEO THRESH WRITE_INDEX READ_INDEX FINISHED DRIFT buffer tempframe
       compframe stdev full drift_update set_THRESH set_FINISHED set_DRIFT
       set_buffer set_compframe set_stdev set_full set_drift_update grab put
       value strict relaxed makeStrict makeRelaxed count data comp priority
       index set_count new_Frame first_frame] in H.

(** ** Scans and transfers *)

Lemma ltb_irrefl (x : float) : (x <? x)%float = false.
Proof.
  rewrite ltb_spec. unfold SFltb, SFcompare.
  destruct (Prim2SF x) as [sg| sg | |sg m e]; try (destruct sg); try reflexivity.
  - rewrite Z.compare_refl, Pos.compare_cont_refl. reflexivity.
  - rewrite Z.compare_refl, Pos.compare_cont_refl. reflexivity.
Qed.

Lemma rscan_Some p (l : list Frame) j :
  rscan p l = Some j ->
  exists x, l !! j = Some x /\ p x = true /\
    forall k y, (j < k)%nat -> l !! k = Some y -> p y = false.
Proof.
  revert j. induction l as [|a r IH]; intros j H; simpl in H; [discriminate|].
  destruct (rscan p r) as [j'|] eqn:E.
  - injection H as <-. destruct (IH j' eq_refl) as (x & Hx & Hp & Hlater).
    exists x. repeat split; auto.
    intros [|k] y Hk Hy; [lia|]. simpl in Hy. apply (Hlater k); [lia|exact Hy].
  - destruct (p a) eqn:Ea; [|discriminate]. injection H as <-.
    exists a. repeat split; auto.
    intros [|k] y Hk Hy; [lia|]. simpl in Hy.
    clear IH Hk. revert k Hy. induction r as [|b r IHr]; intros k Hy; [destruct k; discriminate|].
    simpl in E. destruct (rscan p r) eqn:Er; [discriminate|].
    destruct (p b) eqn:Eb; [discriminate|].
    destruct k as [|k]; simpl in Hy; [congruence|]. apply (IHr eq_refl k Hy).
Qed.

Lemma rscan_None p (l : list Frame) :
  rscan p l = None <-> Forall (fun x => p x = false) l.
Proof.
  induction l as [|a r IH]; simpl; [split; auto|].
  destruct (rscan p r) eqn:E.
  - split; [discriminate|]. intros H. inversion H; subst.
    destruct IH as [_ IH]. specialize (IH H3). discriminate.
  - destruct (p a) eqn:Ea.
    + split; [discriminate|]. intros H. inversion H; congruence.
    + split; auto. intros _. constructor; auto. apply IH. reflexivity.
Qed.

(** The scan stops at [j] exactly when [j] is the last position whose record
    satisfies the test. *)
Lemma rscan_last p (l : list Frame) j :
  rscan p l = Some j <->
  exists x, l !! j = Some x /\ p x = true /\
    forall k y, (j < k)%nat -> l !! k = Some y -> p y = false.
Proof.
  split; [apply rscan_Some|].
  intros (x & Hx & Hp & Hlater).
  destruct (rscan p l) as [j'|] eqn:E.
  - destruct (rscan_Some _ _ _ E) as (x' & Hx' & Hp' & Hlater').
    destruct (Nat.lt_trichotomy j j') as [Hlt|[->|Hgt]]; [|reflexivity|].
    + rewrite (Hlater _ _ Hlt Hx') in Hp'. discriminate.
    + rewrite (Hlater' _ _ Hgt Hx) in Hp. discriminate.
  - apply rscan_None in E. rewrite Forall_lookup in E.
    rewrite (E _ _ Hx) in Hp. discriminate.
Qed.

Lemma length_transfer j i (l : list Frame) : length (transfer j i l) = length l.
Proof. unfold transfer. rewrite !length_alter. reflexivity. Qed.

Lemma transfer_target j i (l : list Frame) t :
  j <> i -> l !! i = Some t ->
  transfer j i l !! i = Some (set_count (count t + 1) t).
Proof.
  intros Hne Hi. unfold transfer.
  rewrite list_lookup_alter_eq, list_lookup_alter_ne, Hi by exact Hne. reflexivity.
Qed.

Lemma transfer_donor j i (l : list Frame) d :
  j <> i -> l !! j = Some d ->
  transfer j i l !! j = Some (set_count (count d - 1) d).
Proof.
  intros Hne Hj. unfold transfer.
  rewrite list_lookup_alter_ne, list_lookup_alter_eq, Hj by congruence. reflexivity.
Qed.

Lemma transfer_other j i (l : list Frame) k :
  k <> i -> k <> j -> transfer j i l !! k = l !! k.
Proof.
  intros Hi Hj. unfold transfer.
  rewrite !list_lookup_alter_ne by congruence. reflexivity.
Qed.

Lemma safe_donor_ne dup (l : list Frame) i t j :
  l !! i = Some t -> count t < dup -> safe_donor dup l = Some j -> j <> i.
Proof.
  intros Hi Hlt Hj ->. apply rscan_Some in Hj as (x & Hx & Hp & _).
  rewrite Hi in Hx. injection Hx as <-. apply Z.ltb_lt in Hp. lia.
Qed.

Lemma priority_donor_ne (l : list Frame) i t j :
  l !! i = Some t -> priority_donor (priority t) l = Some j -> j <> i.
Proof.
  intros Hi Hj ->. apply rscan_Some in Hj as (x & Hx & Hp & _).
  rewrite Hi in Hx. injection Hx as <-.
  apply andb_true_iff in Hp as [Hp _]. rewrite ltb_irrefl in Hp. discriminate.
Qed.

(** ** The adjustment of the record in the middle *)

Lemma fix_frame_done dup i (l : list Frame) t :
  l !! i = Some t -> dup <= count t -> fix_frame dup i l = l.
Proof.
  intros Hi Hge. unfold fix_frame. rewrite Hi.
  replace (Z.to_nat (dup - count t)) with O by lia. reflexivity.
Qed.

Lemma fix_frame_transfer dup i (l : list Frame) t j :
  l !! i = Some t -> count t < dup -> j <> i ->
  fix_loop (Z.to_nat (dup - count t - 1)) dup i (transfer j i l)
  = fix_frame dup i (transfer j i l).
Proof.
  intros Hi Hlt Hne. unfold fix_frame.
  rewrite (transfer_target _ _ _ _ Hne Hi). simpl.
  f_equal. lia.
Qed.

Lemma fix_frame_unfold dup i (l : list Frame) t :
  l !! i = Some t -> count t < dup ->
  fix_frame dup i l =
    match safe_donor dup l with
    | Some j => fix_frame dup i (transfer j i l)
    | None =>
        match priority_donor (priority t) l with
        | Some j => fix_frame dup i (transfer j i l)
        | None => l
        end
    end.
Proof.
  intros Hi Hlt. unfold fix_frame at 1. rewrite Hi.
  replace (Z.to_nat (dup - count t)) with (S (Z.to_nat (dup - count t - 1))) by lia.
  simpl. rewrite Hi.
  destruct (count t <? dup) eqn:E; [|apply Z.ltb_ge in E; lia].
  destruct (safe_donor dup l) as [j|] eqn:Es.
  - apply fix_frame_transfer; auto. eapply safe_donor_ne; eauto.
  - destruct (priority_donor (priority t) l) as [j|] eqn:Ep; [|reflexivity].
    apply fix_frame_transfer; auto. eapply priority_donor_ne; eauto.
Qed.

(** Where the loop leaves the record: at the goal, or with no record left to
    take from. *)
Lemma fix_frame_stops dup i (l : list Frame) t :
  l !! i = Some t -> count t < dup ->
  exists t', fix_frame dup i l !! i = Some t' /\
    priority t' = priority t /\ count t < count t' + 1 /\ count t' <= dup /\
    (count t' = dup \/
     (safe_donor dup (fix_frame dup i l) = None /\
      priority_donor (priority t') (fix_frame dup i l) = None)).
Proof.
  remember (Z.to_nat (dup - count t)) as n eqn:Hn.
  revert l t Hn. induction n as [|n IH]; intros l t Hn Hi Hlt; [lia|].
  assert (Hnext : forall j, j <> i ->
    exists t', fix_frame dup i (transfer j i l) !! i = Some t' /\
      priority t' = priority t /\ count t < count t' + 1 /\ count t' <= dup /\
      (count t' = dup \/
       (safe_donor dup (fix_frame dup i (transfer j i l)) = None /\
        priority_donor (priority t') (fix_frame dup i (transfer j i l)) = None))).
  { intros j Hne. pose proof (transfer_target _ _ _ _ Hne Hi) as Hi'.
    destruct (Z.eq_dec (count t + 1) dup) as [Heq|Hneq].
    - rewrite (fix_frame_done _ _ _ _ Hi') by (simpl; lia).
      eexists. split; [exact Hi'|]. simpl. repeat split; lia.
    - destruct (IH (transfer j i l) (set_count (count t + 1) t)) as (t' & H1 & H2 & H3 & H4 & H5);
        [simpl; lia|exact Hi'|simpl; lia|].
      exists t'. simpl in *. repeat split; auto; lia. }
  rewrite (fix_frame_unfold _ _ _ _ Hi Hlt).
  destruct (safe_donor dup l) as [j|] eqn:Es.
  - apply Hnext. eapply safe_donor_ne; eauto.
  - destruct (priority_donor (priority t) l) as [j|] eqn:Ep.
    + apply Hnext. eapply priority_donor_ne; eauto.
    + exists t. repeat split; auto; try lia.
Qed.

Lemma length_fix_loop fuel dup i (l : list Frame) :
  length (fix_loop fuel dup i l) = length l.
Proof.
  revert l. induction fuel as [|k IH]; intros l; simpl; [reflexivity|].
  destruct (l !! i); [|reflexivity].
  destruct (_ <? _); [|reflexivity].
  destruct (safe_donor dup l); [rewrite IH; apply length_transfer|].
  destruct (priority_donor _ l); [rewrite IH; apply length_transfer|reflexivity].
Qed.

Lemma length_fix_frame dup i (l : list Frame) :
  length (fix_frame dup i l) = length l.
Proof. unfold fix_frame. destruct (l !! i); [apply length_fix_loop|reflexivity]. Qed.

(** The case of a record written once among records written twice. *)
Lemma fix_frame_neighbours i (l : list Frame) t :
  l !! i = Some t -> count t = 1 ->
  (forall k x, k <> i -> l !! k = Some x -> count x = 2) ->
  (exists k x, k <> i /\ l !! k = Some x /\ (priority x <? priority t)%float = true) ->
  exists j d, j <> i /\ l !! j = Some d /\
    (priority d <? priority t)%float = true /\
    (forall k y, (j < k)%nat -> l !! k = Some y ->
       (priority y <? priority t)%float = false) /\
    fix_frame 2 i l = transfer j i l /\
    fix_frame 2 i l !! j = Some (set_count 1 d) /\
    fix_frame 2 i l !! i = Some (set_count 2 t).
Proof.
  intros Hi Hc Hall (k0 & x0 & Hk0 & Hx0 & Hp0).
  assert (Hsafe : safe_donor 2 l = None).
  { apply rscan_None, Forall_lookup. intros k x Hx. apply Z.ltb_ge.
    destruct (Nat.eq_dec k i) as [->|Hne].
    - rewrite Hi in Hx. injection Hx as <-. lia.
    - rewrite (Hall _ _ Hne Hx). lia. }
  destruct (priority_donor (priority t) l) as [j|] eqn:Ep.
  2:{ apply rscan_None in Ep. rewrite Forall_lookup in Ep.
      specialize (Ep _ _ Hx0). simpl in Ep.
      rewrite Hp0, (Hall _ _ Hk0 Hx0) in Ep. discriminate. }
  pose proof (priority_donor_ne _ _ _ _ Hi Ep) as Hne.
  destruct (rscan_Some _ _ _ Ep) as (d & Hd & Hp & Hlater).
  apply andb_true_iff in Hp as [Hp _].
  exists j, d. split; [exact Hne|]. split; [exact Hd|]. split; [exact Hp|].
  assert (Heq : fix_frame 2 i l = transfer j i l).
  { rewrite (fix_frame_unfold _ _ _ _ Hi) by lia. rewrite Hsafe, Ep.
    apply (fix_frame_done _ _ _ _ (transfer_target _ _ _ _ Hne Hi)). simpl. lia. }
  split.
  { intros k y Hk Hy. specialize (Hlater _ _ Hk Hy). simpl in Hlater.
    destruct (Nat.eq_dec k i) as [->|Hki].
    - rewrite Hi in Hy. injection Hy as <-. apply ltb_irrefl.
    - rewrite (Hall _ _ Hki Hy) in Hlater.
      apply andb_false_iff in Hlater as [H|H]; [exact H|discriminate]. }
  rewrite Heq. split; [reflexivity|]. split.
  - rewrite (transfer_donor _ _ _ _ Hne Hd), (Hall _ _ Hne Hd). reflexivity.
  - rewrite (transfer_target _ _ _ _ Hne Hi), Hc. reflexivity.
Qed.

(** *** The loop against the procedure of the specification *)

Lemma nearest_tail_unique P (l : list Frame) j j' :
  nearest_tail P l j -> nearest_tail P l j' -> j = j'.
Proof.
  intros (d & Hd & Hp & Hl) (d' & Hd' & Hp' & Hl').
  destruct (Nat.lt_trichotomy j j') as [H|[H|H]]; [|exact H|].
  - exfalso. exact (Hl _ _ H Hd' Hp').
  - exfalso. exact (Hl' _ _ H Hd Hp).
Qed.

Lemma moved_unit_unique j i (l l1 l2 : list Frame) :
  moved_unit j i l l1 -> moved_unit j i l l2 -> l1 = l2.
Proof.
  intros (Hne & (d & Hd & Hd1) & (t & Ht & Ht1) & Ho1)
         (_ & (d' & Hd' & Hd2) & (t' & Ht' & Ht2) & Ho2).
  apply list_eq. intros k.
  destruct (Nat.eq_dec k i) as [->|Hki]; [congruence|].
  destruct (Nat.eq_dec k j) as [->|Hkj]; [congruence|].
  rewrite Ho1, Ho2 by assumption. reflexivity.
Qed.

Lemma transfer_moves j i (l : list Frame) d t :
  j <> i -> l !! j = Some d -> l !! i = Some t -> moved_unit j i l (transfer j i l).
Proof.
  intros Hne Hd Ht. split; [exact Hne|]. split; [|split].
  - exists d. split; [exact Hd|]. apply transfer_donor; assumption.
  - exists t. split; [exact Ht|]. apply transfer_target; assumption.
  - intros k Hi Hj. apply transfer_other; assumption.
Qed.

Lemma safe_donor_nearest dup (l : list Frame) j :
  safe_donor dup l = Some j <-> nearest_tail (fun d => dup < count d) l j.
Proof.
  unfold safe_donor. rewrite rscan_last. unfold nearest_tail.
  split; intros (d & Hd & Hp & Hl); exists d; (split; [exact Hd|]).
  - split; [apply Z.ltb_lt, Hp|]. intros k y Hk Hy. specialize (Hl _ _ Hk Hy).
    apply Z.ltb_ge in Hl. lia.
  - split; [apply Z.ltb_lt, Hp|]. intros k y Hk Hy. specialize (Hl _ _ Hk Hy).
    apply Z.ltb_ge. lia.
Qed.

Lemma priority_donor_nearest p (l : list Frame) j :
  priority_donor p l = Some j <->
  nearest_tail (fun d => (priority d <? p)%float = true /\ 1 < count d) l j.
Proof.
  unfold priority_donor. rewrite rscan_last. unfold nearest_tail.
  split; intros (d & Hd & Hp & Hl); exists d; (split; [exact Hd|]).
  - apply andb_true_iff in Hp as [H1 H2]. apply Z.ltb_lt in H2.
    split; [auto|]. intros k y Hk Hy [H3 H4]. specialize (Hl _ _ Hk Hy).
    simpl in Hl. rewrite H3 in Hl. apply Z.ltb_lt in H4. rewrite H4 in Hl. discriminate.
  - destruct Hp as [H1 H2]. split; [simpl; rewrite H1; apply Z.ltb_lt, H2|].
    intros k y Hk Hy. specialize (Hl _ _ Hk Hy). simpl.
    destruct (priority y <? p)%float; [|reflexivity].
    destruct (1 <? count y) eqn:E; [|reflexivity].
    apply Z.ltb_lt in E. exfalso. apply Hl. auto.
Qed.

(** A round of the specification is the round the loop makes. *)
Lemma spec_round_transfer dup i (l l' : list Frame) t :
  l !! i = Some t ->
  spec_round dup i l l' ->
  exists j, l' = transfer j i l /\
    (safe_donor dup l = Some j \/
     (safe_donor dup l = None /\ priority_donor (priority t) l = Some j)).
Proof.
  intros Hi [j Hn Hm|j t' Hi' Hnone Hn Hm].
  - exists j. split; [|left; apply safe_donor_nearest, Hn].
    apply (moved_unit_unique j i l); [exact Hm|].
    destruct Hm as (Hne & (d & Hd & _) & _). eapply transfer_moves; eauto.
  - rewrite Hi in Hi'. injection Hi' as <-.
    exists j. split.
    + apply (moved_unit_unique j i l); [exact Hm|].
      destruct Hm as (Hne & (d & Hd & _) & _). eapply transfer_moves; eauto.
    + right. split; [|apply priority_donor_nearest, Hn].
      destruct (safe_donor dup l) as [j'|] eqn:E; [|reflexivity].
      apply safe_donor_nearest in E. destruct (Hnone _ E).
Qed.

Lemma donor_round dup i (l : list Frame) t j :
  l !! i = Some t -> count t < dup ->
  (safe_donor dup l = Some j \/
   (safe_donor dup l = None /\ priority_donor (priority t) l = Some j)) ->
  j <> i /\ spec_round dup i l (transfer j i l).
Proof.
  intros Hi Hlt [Hs|[Hs Hp]].
  - pose proof (safe_donor_ne _ _ _ _ _ Hi Hlt Hs) as Hne. split; [exact Hne|].
    apply safe_donor_nearest in Hs. apply (safe_pass _ _ _ _ j Hs).
    destruct Hs as (d & Hd & _). eapply transfer_moves; eauto.
  - pose proof (priority_donor_ne _ _ _ _ Hi Hp) as Hne. split; [exact Hne|].
    apply priority_donor_nearest in Hp. apply (priority_pass _ _ _ _ j t Hi).
    + intros j' Hj'. apply safe_donor_nearest in Hj'. congruence.
    + exact Hp.
    + destruct Hp as (d & Hd & _). eapply transfer_moves; eauto.
Qed.

Lemma fix_frame_spec dup i (l : list Frame) t :
  l !! i = Some t -> spec_realloc dup i l (fix_frame dup i l).
Proof.
  remember (Z.to_nat (dup - count t)) as n eqn:Hn.
  revert l t Hn. induction n as [|n IH]; intros l t Hn Hi.
  - rewrite (fix_frame_done _ _ _ _ Hi) by lia.
    apply (realloc_reached _ _ _ t Hi). lia.
  - assert (Hlt : count t < dup) by lia.
    assert (Hnext : forall j, j <> i -> spec_round dup i l (transfer j i l) ->
              spec_realloc dup i l (fix_frame dup i (transfer j i l))).
    { intros j Hne Hr. apply (realloc_move _ _ _ _ _ t Hi Hlt Hr).
      apply (IH _ (set_count (count t + 1) t)); [simpl; lia|].
      apply transfer_target; assumption. }
    rewrite (fix_frame_unfold _ _ _ _ Hi Hlt).
    destruct (safe_donor dup l) as [j|] eqn:Es.
    + destruct (donor_round dup i l t j Hi Hlt) as [Hne Hr]; [auto|].
      apply Hnext; assumption.
    + destruct (priority_donor (priority t) l) as [j|] eqn:Ep.
      * destruct (donor_round dup i l t j Hi Hlt) as [Hne Hr]; [auto|].
        apply Hnext; assumption.
      * apply (realloc_stuck _ _ _ t Hi Hlt). intros l' Hr.
        destruct (spec_round_transfer _ _ _ _ _ Hi Hr) as (j & _ & [H|[_ H]]); congruence.
Qed.

Lemma spec_realloc_unique dup i (l r : list Frame) :
  spec_realloc dup i l r -> r = fix_frame dup i l.
Proof.
  induction 1 as [l t Hi Hge|l t Hi Hlt Hno|l l' l'' t Hi Hlt Hr _ IH].
  - symmetry. eapply fix_frame_done; eauto.
  - rewrite (fix_frame_unfold _ _ _ _ Hi Hlt).
    destruct (safe_donor dup l) as [j|] eqn:Es.
    + exfalso. apply (Hno (transfer j i l)).
      apply (donor_round dup i l t j Hi Hlt). auto.
    + destruct (priority_donor (priority t) l) as [j|] eqn:Ep; [|reflexivity].
      exfalso. apply (Hno (transfer j i l)).
      apply (donor_round dup i l t j Hi Hlt). auto.
  - rewrite IH, (fix_frame_unfold _ _ _ _ Hi Hlt).
    destruct (spec_round_transfer _ _ _ _ _ Hi Hr) as (j & -> & [Hs|[Hs Hp]]).
    + rewrite Hs. reflexivity.
    + rewrite Hs, Hp. reflexivity.
Qed.

(** C1.  When the correction runs the reallocation (the drift is within the
    bound) on a record in the middle that is below [duplicate_count], the
    buffer it leaves is the one the procedure of the specification leads to,
    and the only one: rounds that take one unit from the record nearest the
    tail above the goal, or else from the record nearest the tail of strictly
    lower priority written more than once, until the record is at the goal or
    no round can be made.  With the record at 1, every other record at 2 and
    one of them of lower priority, the lower-priority record nearest the tail
    goes to 1 and the record goes to 2. *)
Theorem C1_slot_reallocator (cfg : Config) (s : State) (t : Frame) :
  let dup := duplicate_count cfg in
  let i := Z.to_nat (Z.quot (buffer_size cfg) 2) in
  Z.abs (DRIFT s) < adjustment_bound cfg ->
  buffer s !! i = Some t ->
  count t < dup ->
  exists l',
    correcting cfg s = Ok (set_buffer l' s) /\
    spec_realloc dup i (buffer s) l' /\
    (forall l'', spec_realloc dup i (buffer s) l'' -> l'' = l') /\
    (exists t', l' !! i = Some t' /\
       (count t' = dup \/
        forall l'', ~ spec_round dup i l' l'')) /\
    (dup = 2 -> count t = 1 ->
     (forall k x, k <> i -> buffer s !! k = Some x -> count x = 2) ->
     (exists k x, k <> i /\ buffer s !! k = Some x /\
        (priority x <? priority t)%float = true) ->
     exists j d, j <> i /\ buffer s !! j = Some d /\
       (priority d <? priority t)%float = true /\
       (forall k y, (j < k)%nat -> buffer s !! k = Some y ->
          (priority y <? priority t)%float = false) /\
       l' !! j = Some (set_count 1 d) /\
       l' !! i = Some (set_count 2 t) /\
       forall k, k <> i -> k <> j -> l' !! k = buffer s !! k).
Proof.
  intros dup i Hdrift Hi Hlt.
  exists (fix_frame dup i (buffer s)). split; [|split; [|split; [|split]]].
  - unfold correcting. fold i. fold dup.
    destruct (Z.abs (DRIFT s) <? adjustment_bound cfg) eqn:E;
      [|apply Z.ltb_ge in E; lia].
    rewrite Hi. reflexivity.
  - eapply fix_frame_spec; eauto.
  - apply spec_realloc_unique.
  - destruct (fix_frame_stops dup i _ _ Hi Hlt) as (t' & Ht' & Hp & _ & _ & Hstop).
    exists t'. split; [exact Ht'|].
    destruct Hstop as [H|[Hs Hpd]]; [left; exact H|right].
    intros l'' Hr.
    destruct (spec_round_transfer _ _ _ _ _ Ht' Hr) as (j & _ & [H|[_ H]]); congruence.
  - intros Hdup Hc Hall Hex. rewrite Hdup.
    destruct (fix_frame_neighbours i _ _ Hi Hc Hall Hex)
      as (j & d & Hne & Hd & Hp & Hlater & Heq & Hj & Hi').
    exists j, d. repeat (split; [assumption|]).
    intros k Hki Hkj. rewrite Heq. apply transfer_other; assumption.
Qed.

(** *** The adjustment moves units, it makes none *)

Lemma total_cons (a : Frame) (r : list Frame) : total (a :: r) = count a + total r.
Proof. reflexivity. Qed.

Lemma total_alter f (l : list Frame) i x :
  l !! i = Some x -> total (alter f i l) = total l + (count (f x) - count x).
Proof.
  revert i. induction l as [|a r IH]; intros i H; [discriminate|].
  destruct i as [|i].
  - injection H as ->. change (alter f 0%nat (x :: r)) with (f x :: r).
    rewrite !total_cons. lia.
  - change (alter f (S i) (a :: r)) with (a :: alter f i r).
    rewrite !total_cons, (IH i H). lia.
Qed.

Lemma total_transfer j i (l : list Frame) d t :
  l !! j = Some d -> l !! i = Some t -> total (transfer j i l) = total l.
Proof.
  intros Hj Hi. unfold transfer.
  destruct (alter (fun f => set_count (count f - 1) f) j l !! i) as [x|] eqn:E.
  - rewrite (total_alter _ _ _ _ E), (total_alter _ _ _ _ Hj). simpl. lia.
  - apply lookup_ge_None in E. rewrite length_alter in E.
    apply lookup_lt_Some in Hi. lia.
Qed.

Lemma total_fix_loop fuel dup i (l : list Frame) :
  total (fix_loop fuel dup i l) = total l.
Proof.
  revert l. induction fuel as [|k IH]; intros l; simpl; [reflexivity|].
  destruct (l !! i) as [tofix|] eqn:Hi; [|reflexivity].
  destruct (count tofix <? dup); [|reflexivity].
  destruct (safe_donor dup l) as [j|] eqn:Es.
  - apply rscan_Some in Es as (d & Hd & _).
    rewrite IH. eapply total_transfer; eauto.
  - destruct (priority_donor (priority tofix) l) as [j|] eqn:Ep; [|reflexivity].
    apply rscan_Some in Ep as (d & Hd & _).
    rewrite IH. eapply total_transfer; eauto.
Qed.

(** X2.  A correction that runs the adjustment (the drift is within the
    bound) leaves the buffer with as many records, standing for as many frames
    in all, and leaves the drift as it was: units only move between records. *)
Theorem adjustment_conserves_total (cfg : Config) (s s' : State) :
  Z.abs (DRIFT s) < adjustment_bound cfg ->
  correcting cfg s = Ok s' ->
  total (buffer s') = total (buffer s) /\
  length (buffer s') = length (buffer s) /\
  DRIFT s' = DRIFT s.
Proof.
  intros Hd H. unfold correcting in H.
  destruct (Z.abs (DRIFT s) <? adjustment_bound cfg) eqn:E;
    [|apply Z.ltb_ge in E; lia].
  destruct (buffer s !! _) as [tofix|] eqn:Hi; [|discriminate].
  injection H as <-. cbn [buffer set_buffer DRIFT].
  unfold fix_frame. rewrite Hi.
  split; [apply total_fix_loop|]. split; [apply length_fix_loop|reflexivity].
Qed.

(** ** The drift controller *)

Lemma set_count_same (f : Frame) c : c = count f -> set_count c f = f.
Proof. intros ->. destruct f. reflexivity. Qed.

Lemma cut_one_units fuel dup bound c drift :
  bound <= drift -> (Z.to_nat (c - dup) <= fuel)%nat ->
  cut_one fuel dup bound c drift =
    (c - Z.min (Z.max 0 (c - dup)) (drift - bound + 1),
     drift - Z.min (Z.max 0 (c - dup)) (drift - bound + 1)).
Proof.
  revert c drift. induction fuel as [|k IH]; intros c drift Hd Hf; simpl.
  - f_equal; lia.
  - destruct (dup <? c) eqn:E1; [apply Z.ltb_lt in E1|apply Z.ltb_ge in E1; f_equal; lia].
    destruct (drift - 1 <? bound) eqn:E2; [apply Z.ltb_lt in E2; f_equal; lia|].
    apply Z.ltb_ge in E2. rewrite IH by lia. f_equal; lia.
Qed.

Lemma spec_cut_idle dup bound (l : list Frame) drift :
  drift < bound -> spec_cut dup bound l drift = (l, drift).
Proof.
  intros Hlt. induction l as [|f r IH]; simpl; [reflexivity|].
  replace (Z.min (Z.max 0 (count f - dup)) (Z.max 0 (drift - bound + 1))) with 0 by lia.
  rewrite Z.sub_0_r, IH, set_count_same by lia. reflexivity.
Qed.

Lemma cut_frames_spec dup bound (l : list Frame) drift :
  cut_frames dup bound l drift = spec_cut dup bound l drift.
Proof.
  revert drift. induction l as [|f r IH]; intros drift; [reflexivity|].
  cbn [cut_frames].
  destruct (bound <=? drift) eqn:E.
  - apply Z.leb_le in E. rewrite cut_one_units by lia. cbn [spec_cut].
    replace (Z.max 0 (drift - bound + 1)) with (drift - bound + 1) by lia.
    rewrite IH. reflexivity.
  - apply Z.leb_gt in E. rewrite spec_cut_idle by exact E. reflexivity.
Qed.

Lemma spec_cut_props dup bound (l : list Frame) drift l' d' :
  bound <= drift -> spec_cut dup bound l drift = (l', d') ->
  length l' = length l /\
  d' = drift - (total l - total l') /\
  bound - 1 <= d' /\
  (d' < bound \/ Forall (fun f => count f <= dup) l') /\
  Forall2 (fun f f' => f' = set_count (count f') f /\ count f' <= count f /\
                       Z.min dup (count f) <= count f') l l'.
Proof.
  unfold total. revert drift l' d'. induction l as [|f r IH]; intros drift l' d' Hd H.
  - injection H as <- <-. simpl. repeat split; try lia; auto.
  - cbn [spec_cut] in H.
    set (units := Z.min (Z.max 0 (count f - dup)) (Z.max 0 (drift - bound + 1))) in *.
    destruct (spec_cut dup bound r (drift - units)) as [r' dr] eqn:Er.
    injection H as <- <-.
    destruct (Z_lt_le_dec (drift - units) bound) as [Hlt|Hge].
    + rewrite spec_cut_idle in Er by exact Hlt. injection Er as <- <-.
      simpl. repeat split; try lia.
      constructor; [simpl; repeat split; lia|].
      clear. induction r; constructor; auto.
      repeat split; try lia. symmetry. apply set_count_same. reflexivity.
    + destruct (IH _ _ _ Hge Er) as (H1 & H2 & H3 & H4 & H5).
      simpl. repeat split; try lia.
      * destruct H4 as [H4|H4]; [left; exact H4|right].
        constructor; [simpl; lia|exact H4].
      * constructor; [simpl; repeat split; lia|exact H5].
Qed.

(** C3.  With the drift at or above [adjustment_bound], the correction is the
    cut of the specification: head to tail, every record above
    [duplicate_count] is lowered one unit at a time, the drift with it, and the
    scan stops the moment the drift is below the bound, or at the end of the
    buffer.  No count rises, none goes below [duplicate_count] by the cut, the
    drift falls by exactly the number of frames taken out, and it never goes
    more than one below the bound.  With the bound at 5 and the drift at 7 the
    drift ends at 4, unless the buffer ran out of counts above
    [duplicate_count]. *)
Theorem C3_drift_cut (cfg : Config) (s : State) :
  let dup := duplicate_count cfg in
  let bound := adjustment_bound cfg in
  bound <= DRIFT s ->
  exists l' d',
    correcting cfg s = Ok (set_DRIFT d' (set_buffer l' s)) /\
    spec_cut dup bound (buffer s) (DRIFT s) = (l', d') /\
    length l' = length (buffer s) /\
    Forall2 (fun f f' => f' = set_count (count f') f /\ count f' <= count f /\
                         Z.min dup (count f) <= count f') (buffer s) l' /\
    d' = DRIFT s - (total (buffer s) - total l') /\
    bound - 1 <= d' /\
    (d' < bound \/ Forall (fun f => count f <= dup) l') /\
    (bound = 5 -> DRIFT s = 7 ->
     d' = 4 \/ (4 < d' /\ Forall (fun f => count f <= dup) l')).
Proof.
  intros dup bound Hd.
  destruct (spec_cut dup bound (buffer s) (DRIFT s)) as [l' d'] eqn:E.
  exists l', d'.
  destruct (spec_cut_props _ _ _ _ _ _ Hd E) as (H1 & H2 & H3 & H4 & H5).
  split.
  - unfold correcting. fold dup bound.
    destruct (Z.abs (DRIFT s) <? bound) eqn:E1; [apply Z.ltb_lt in E1; lia|].
    destruct (bound <=? DRIFT s) eqn:E2; [|apply Z.leb_gt in E2; lia].
    rewrite cut_frames_spec, E. reflexivity.
  - repeat (split; [assumption || reflexivity|]).
    intros Hb Hs. destruct H4 as [H4|H4]; [left; lia|].
    destruct (Z.eq_dec d' 4); [left; assumption|right; split; [lia|exact H4]].
Qed.

(** More rounds than [duplicate_count - count] change nothing. *)
Lemma add_one_rounds fuel dup bound c drift :
  (Z.to_nat (dup - c) <= fuel)%nat ->
  add_one fuel dup bound c drift
  = add_one (Z.to_nat (dup - c)) dup bound c drift.
Proof.
  revert c drift. induction fuel as [|k IH]; intros c drift Hf.
  - replace (Z.to_nat (dup - c)) with O by lia. reflexivity.
  - destruct (Z_lt_le_dec c dup) as [Hlt|Hge].
    + replace (Z.to_nat (dup - c)) with (S (Z.to_nat (dup - (c + 1)))) by lia.
      simpl. destruct (c <? dup); [|reflexivity].
      destruct (Z.abs (drift + 1) <? bound); [reflexivity|].
      apply IH. lia.
    + replace (Z.to_nat (dup - c)) with O by lia. simpl.
      destruct (c <? dup) eqn:E; [apply Z.ltb_lt in E; lia|reflexivity].
Qed.

Lemma add_one_bound fuel dup bound c drift c' d' :
  0 < bound -> drift <= - bound -> (Z.to_nat (dup - c) <= fuel)%nat ->
  add_one fuel dup bound c drift = (c', d') ->
  c <= c' /\ (Z.abs d' < bound \/ (d' <= - bound /\ dup <= c')).
Proof.
  intros Hb. revert c drift. induction fuel as [|k IH]; intros c drift Hd Hf H; simpl in H.
  - injection H as <- <-. lia.
  - destruct (c <? dup) eqn:E1; [apply Z.ltb_lt in E1|apply Z.ltb_ge in E1].
    + destruct (Z.abs (drift + 1) <? bound) eqn:E2.
      * apply Z.ltb_lt in E2. injection H as <- <-. lia.
      * apply Z.ltb_ge in E2. apply IH in H; lia.
    + injection H as <- <-. lia.
Qed.

Lemma add_frames_idle dup bound (l : list Frame) drift :
  Z.abs drift < bound -> add_frames dup bound l drift = (l, drift).
Proof.
  intros H. destruct l as [|f r]; simpl; [reflexivity|].
  destruct (bound <=? Z.abs drift) eqn:E; [apply Z.leb_le in E; lia|reflexivity].
Qed.

Lemma add_frames_bound dup bound (l : list Frame) drift l' d' :
  0 < bound -> drift <= - bound ->
  add_frames dup bound l drift = (l', d') ->
  Z.abs d' < bound \/ (d' <= - bound /\ Forall (fun f => dup <= count f) l').
Proof.
  intros Hb. revert drift l' d'. induction l as [|f r IH]; intros drift l' d' Hd H.
  - injection H as <- <-. right. split; [exact Hd|constructor].
  - cbn [add_frames] in H.
    destruct (bound <=? Z.abs drift) eqn:E; [|apply Z.leb_gt in E; lia].
    destruct (add_one (Z.to_nat (dup - count f)) dup bound (count f) drift) as [c d] eqn:E1.
    destruct (add_frames dup bound r d) as [r' dr] eqn:E2.
    injection H as <- <-.
    destruct (add_one_bound _ _ _ _ _ _ _ Hb Hd (Nat.le_refl _) E1) as [Hc [Hstop|[Hd' Hc']]].
    + rewrite add_frames_idle in E2 by exact Hstop. injection E2 as <- <-. left. exact Hstop.
    + destruct (IH _ _ _ Hd' E2) as [H|[H1 H2]]; [left; exact H|right].
      split; [exact H1|]. constructor; [exact Hc'|exact H2].
Qed.

Lemma length_add_frames dup bound (l : list Frame) drift :
  length (add_frames dup bound l drift).1 = length l.
Proof.
  revert drift. induction l as [|f r IH]; intros drift; cbn [add_frames]; [reflexivity|].
  destruct (bound <=? Z.abs drift); [|reflexivity].
  destruct (add_one _ _ _ _ _) as [c d].
  specialize (IH d). destruct (add_frames dup bound r d) as [r' dr].
  simpl in *. rewrite IH. reflexivity.
Qed.

(** C5.  After a correction the drift is within the bound, unless the
    correction went through the whole buffer: with the drift too high, and
    then no record is left above [duplicate_count]; or with the drift too low,
    and then no record is left below it. *)
Theorem C5_drift_bound (cfg : Config) (s s' : State) :
  let dup := duplicate_count cfg in
  let bound := adjustment_bound cfg in
  0 < bound ->
  correcting cfg s = Ok s' ->
  Z.abs (DRIFT s') < bound \/
  (bound <= DRIFT s /\ bound <= DRIFT s' /\
   Forall (fun f => count f <= dup) (buffer s')) \/
  (DRIFT s <= - bound /\ DRIFT s' <= - bound /\
   Forall (fun f => dup <= count f) (buffer s')).
Proof.
  intros dup bound Hb H. unfold correcting in H. fold dup bound in H.
  destruct (Z.abs (DRIFT s) <? bound) eqn:E1.
  - apply Z.ltb_lt in E1. destruct (buffer s !! _); [|discriminate].
    injection H as <-. left. exact E1.
  - apply Z.ltb_ge in E1.
    destruct (bound <=? DRIFT s) eqn:E2.
    + apply Z.leb_le in E2. rewrite cut_frames_spec in H.
      destruct (spec_cut dup bound (buffer s) (DRIFT s)) as [l d] eqn:E.
      injection H as <-. simpl.
      destruct (spec_cut_props _ _ _ _ _ _ E2 E) as (_ & _ & H3 & [H4|H4] & _).
      * left. lia.
      * destruct (Z_lt_le_dec d bound); [left; lia|right; left; auto].
    + apply Z.leb_gt in E2.
      destruct (add_frames dup bound (buffer s) (DRIFT s)) as [l d] eqn:E.
      injection H as <-. simpl.
      assert (Hd : DRIFT s <= - bound) by lia.
      destruct (add_frames_bound _ _ _ _ _ _ Hb Hd E) as [H|[H1 H2]];
        [left; exact H|right; right; auto].
Qed.

(** ** The window *)

Lemma length_on_back f (l : list Frame) : length (on_back f l) = length l.
Proof.
  induction l as [|x [|y r] IH]; simpl in *; auto.
Qed.

Lemma Forall_on_back (P : Frame -> Prop) f (l : list Frame) :
  (forall x, P x -> P (f x)) -> Forall P l -> Forall P (on_back f l).
Proof.
  intros Hf. induction l as [|x [|y r] IH]; intros H; simpl; auto.
  - inversion H; subst. constructor; auto.
  - inversion H; subst. constructor; auto.
Qed.

Lemma last_on_back f (l : list Frame) : last (on_back f l) = f <$> last l.
Proof.
  induction l as [|x r IH]; [reflexivity|].
  destruct r as [|y r]; [reflexivity|].
  rewrite last_cons_cons, <- IH.
  destruct r; reflexivity.
Qed.

Lemma Forall_transfer (l : list Frame) j i :
  Forall (fun f => 1 <= count f) l ->
  (forall d, l !! j = Some d -> 1 < count d) ->
  Forall (fun f => 1 <= count f) (transfer j i l).
Proof.
  intros H Hj. unfold transfer. apply Forall_alter.
  - apply Forall_alter; [exact H|]. intros d Hd _. simpl. specialize (Hj _ Hd). lia.
  - intros x _ Hx. simpl. lia.
Qed.

Lemma donor_spare dup (l : list Frame) p j d :
  1 <= dup ->
  safe_donor dup l = Some j \/ priority_donor p l = Some j ->
  l !! j = Some d -> 1 < count d.
Proof.
  intros Hdup [H|H] Hd; apply rscan_Some in H as (x & Hx & Hp & _);
    rewrite Hd in Hx; injection Hx as <-.
  - apply Z.ltb_lt in Hp. lia.
  - apply andb_true_iff in Hp as [_ Hp]. apply Z.ltb_lt in Hp. exact Hp.
Qed.

Lemma Forall_fix_loop fuel dup i (l : list Frame) :
  1 <= dup ->
  Forall (fun f => 1 <= count f) l ->
  Forall (fun f => 1 <= count f) (fix_loop fuel dup i l).
Proof.
  intros Hdup. revert l. induction fuel as [|k IH]; intros l H; simpl; [exact H|].
  destruct (l !! i) as [tofix|]; [|exact H].
  destruct (count tofix <? dup); [|exact H].
  destruct (safe_donor dup l) as [j|] eqn:Es.
  - apply IH, Forall_transfer; [exact H|]. intros d Hd.
    eapply (donor_spare dup l (priority tofix)); eauto.
  - destruct (priority_donor (priority tofix) l) as [j|] eqn:Ep; [|exact H].
    apply IH, Forall_transfer; [exact H|]. intros d Hd.
    eapply (donor_spare dup l (priority tofix)); eauto.
Qed.

Lemma Forall_fix_frame dup i (l : list Frame) :
  1 <= dup ->
  Forall (fun f => 1 <= count f) l ->
  Forall (fun f => 1 <= count f) (fix_frame dup i l).
Proof.
  intros Hdup H. unfold fix_frame. destruct (l !! i); [|exact H].
  apply Forall_fix_loop; assumption.
Qed.

Lemma Forall_spec_cut dup bound (l : list Frame) drift :
  1 <= dup ->
  Forall (fun f => 1 <= count f) l ->
  Forall (fun f => 1 <= count f) (spec_cut dup bound l drift).1.
Proof.
  intros Hdup. revert drift. induction l as [|f r IH]; intros drift H; [constructor|].
  inversion H; subst. cbn [spec_cut].
  specialize (IH (drift - Z.min (Z.max 0 (count f - dup)) (Z.max 0 (drift - bound + 1))) H3).
  destruct (spec_cut dup bound r _) as [r' d']. simpl in *.
  constructor; [simpl; lia|exact IH].
Qed.

Lemma length_spec_cut dup bound (l : list Frame) drift :
  length (spec_cut dup bound l drift).1 = length l.
Proof.
  revert drift. induction l as [|f r IH]; intros drift; [reflexivity|].
  cbn [spec_cut].
  specialize (IH (drift - Z.min (Z.max 0 (count f - dup)) (Z.max 0 (drift - bound + 1)))).
  destruct (spec_cut dup bound r _) as [r' d']. simpl in *. rewrite IH. reflexivity.
Qed.

Lemma add_one_ge fuel dup bound c drift :
  c <= (add_one fuel dup bound c drift).1.
Proof.
  revert c drift. induction fuel as [|k IH]; intros c drift; simpl; [lia|].
  destruct (c <? dup); [|simpl; lia].
  destruct (Z.abs (drift + 1) <? bound); [simpl; lia|].
  specialize (IH (c + 1) (drift + 1)). lia.
Qed.

Lemma Forall_add_frames dup bound (l : list Frame) drift :
  Forall (fun f => 1 <= count f) l ->
  Forall (fun f => 1 <= count f) (add_frames dup bound l drift).1.
Proof.
  revert drift. induction l as [|f r IH]; intros drift H; [constructor|].
  inversion H; subst. cbn [add_frames].
  destruct (bound <=? Z.abs drift); [|exact H].
  pose proof (add_one_ge (Z.to_nat (dup - count f)) dup bound (count f) drift) as Hge.
  destruct (add_one _ _ _ _ _) as [c d]. specialize (IH d H3).
  destruct (add_frames dup bound r d) as [r' dr]. simpl in *.
  constructor; [simpl; lia|exact IH].
Qed.

Section Window.

Variable toComp : Mat -> Mat.
Variable stdevAbsdiff : Mat -> Mat -> float.
Variable cfg : Config.

Lemma fill_step_window (s s' : State) :
  window_ok cfg s ->
  fill_step toComp stdevAbsdiff cfg s = Ok s' ->
  window_ok cfg s'.
Proof.
  intros [Hlen Hc] H. unfold fill_step, readFrame in H.
  destruct (Mat_empty (tempframe (grab s))).
  { injection H as <-. split; assumption. }
  cbn in H. destruct (last (buffer s)) as [back|]; [|discriminate].
  destruct (_ <? _)%float.
  - assert (Hw : forall u, window_ok cfg
              (set_buffer (on_back (fun f => set_count (count f + 1) f) (buffer s)) u)).
    { intros u. split; cbn.
      - rewrite length_on_back. exact Hlen.
      - apply Forall_on_back; [|exact Hc]. intros x Hx. simpl. lia. }
    destruct (count back + 1 =? duplicate_count cfg); injection H as <-; apply Hw.
  - destruct (Z.of_nat (length (buffer s)) <? buffer_size cfg) eqn:E;
      injection H as <-; [|split; assumption].
    apply Z.ltb_lt in E. split; cbn.
    + rewrite length_app. simpl. lia.
    + apply Forall_app. split; [exact Hc|]. constructor; [simpl; lia|constructor].
Qed.

Lemma drift_check_buffer (s s' : State) :
  drift_check cfg s = Ok s' -> buffer s' = buffer s.
Proof.
  unfold drift_check. cbn. destruct (_ <=? _); [|intros [= <-]; reflexivity].
  destruct (buffer s) eqn:E; [discriminate|]. intros [= <-]. cbn. exact E.
Qed.

Lemma correcting_window (s s' : State) :
  1 <= duplicate_count cfg ->
  window_ok cfg s ->
  correcting cfg s = Ok s' ->
  window_ok cfg s'.
Proof.
  intros Hdup [Hlen Hc] H. unfold correcting in H.
  destruct (_ <? _).
  - destruct (buffer s !! _); [|discriminate]. injection H as <-. split; cbn.
    + rewrite length_fix_frame. exact Hlen.
    + apply Forall_fix_frame; assumption.
  - destruct (_ <=? _).
    + rewrite cut_frames_spec in H.
      pose proof (length_spec_cut (duplicate_count cfg) (adjustment_bound cfg)
                    (buffer s) (DRIFT s)) as Hl.
      pose proof (Forall_spec_cut (duplicate_count cfg) (adjustment_bound cfg)
                    (buffer s) (DRIFT s) Hdup Hc) as Hf.
      destruct (spec_cut _ _ _ _) as [l d]. injection H as <-. simpl in *.
      split; cbn; [rewrite Hl; exact Hlen|exact Hf].
    + pose proof (length_add_frames (duplicate_count cfg) (adjustment_bound cfg)
                    (buffer s) (DRIFT s)) as Hl.
      pose proof (Forall_add_frames (duplicate_count cfg) (adjustment_bound cfg)
                    (buffer s) (DRIFT s) Hc) as Hf.
      destruct (add_frames _ _ _ _) as [l d]. injection H as <-. simpl in *.
      split; cbn; [rewrite Hl; exact Hlen|exact Hf].
Qed.

End Window.

(** ** Writing and evicting *)

Lemma writeFrames_loop_eq n frame (s : State) :
  writeFrames_loop n frame s =
    mkState (CAP s) (VIDEO s ++ replicate n frame) (THRESH s)
      (WRITE_INDEX s + Z.of_nat n) (READ_INDEX s) (FINISHED s) (DRIFT s)
      (buffer s) (tempframe s) (compframe s) (stdev s) (full s) (drift_update s).
Proof.
  revert s. induction n as [|n IH]; intros s.
  - destruct s. simpl. f_equal; [rewrite app_nil_r; reflexivity|lia].
  - cbn [writeFrames_loop]. rewrite IH. unfold put. cbn.
    f_equal; [rewrite <- app_assoc; reflexivity|lia].
Qed.

Lemma drift_check_same cfg (s s' : State) :
  drift_check cfg s = Ok s' -> same_io s s' /\ buffer s' = buffer s.
Proof.
  unfold drift_check. cbn. destruct (_ <=? _); [|intros [= <-]; repeat split].
  destruct (buffer s) eqn:E; [discriminate|]. intros [= <-].
  split; [repeat split|cbn; exact E].
Qed.

Lemma correcting_same cfg (s s' : State) :
  correcting cfg s = Ok s' -> same_io s s' /\ length (buffer s') = length (buffer s).
Proof.
  unfold correcting. destruct (_ <? _).
  - destruct (buffer s !! _); [|discriminate]. intros [= <-].
    split; [repeat split|cbn; apply length_fix_frame].
  - destruct (_ <=? _).
    + rewrite cut_frames_spec.
      pose proof (length_spec_cut (duplicate_count cfg) (adjustment_bound cfg)
                    (buffer s) (DRIFT s)) as Hl.
      destruct (spec_cut _ _ _ _) as [l d]. intros [= <-].
      split; [repeat split|cbn; exact Hl].
    + pose proof (length_add_frames (duplicate_count cfg) (adjustment_bound cfg)
                    (buffer s) (DRIFT s)) as Hl.
      destruct (add_frames _ _ _ _) as [l d]. intros [= <-].
      split; [repeat split|cbn; exact Hl].
Qed.

Lemma evict_eq (s s' : State) :
  evict s = Ok s' ->
  exists front rest,
    buffer s = front :: rest /\
    s' = mkState (CAP s)
           (VIDEO s ++ replicate (Z.to_nat (count front)) (data front))
           (THRESH s) (WRITE_INDEX s + Z.of_nat (Z.to_nat (count front)))
           (READ_INDEX s) (FINISHED s) (DRIFT s)
           (rest ++ [mkFrame (tempframe s) (compframe s) 1 (stdev s) (READ_INDEX s)])
           (tempframe s) (compframe s) (stdev s) false (drift_update s).
Proof.
  unfold evict. destruct (buffer s) as [|front rest] eqn:E; [discriminate|].
  intros [= <-]. exists front, rest. split; [reflexivity|].
  unfold writeFrames. rewrite writeFrames_loop_eq. reflexivity.
Qed.

Lemma evict_window cfg (s s' : State) :
  window_ok cfg s -> evict s = Ok s' -> window_ok cfg s'.
Proof.
  intros [Hlen Hc] H. apply evict_eq in H as (front & rest & E & ->).
  rewrite E in Hlen, Hc. inversion Hc; subst. split; cbn.
  - rewrite length_app. simpl in *. lia.
  - apply Forall_app. split; [assumption|]. constructor; [simpl; lia|constructor].
Qed.

(** C2.  With [buffer_size] and [duplicate_count] positive, in every state of
    a run the buffer holds at most [buffer_size] records and every record in it
    has a count of at least 1: entering a frame, counting a duplicate, one
    transfer of the adjustment, the correction of the drift, and the eviction
    with the entry that follows all keep it so. *)
Theorem C2_window_invariant toComp stdevAbsdiff (cfg : Config)
    (t : Threshold) (src : list Mat) (s : State) :
  1 <= buffer_size cfg ->
  1 <= duplicate_count cfg ->
  reachable toComp stdevAbsdiff cfg t src s ->
  Z.of_nat (length (buffer s)) <= buffer_size cfg /\
  Forall (fun f => 1 <= count f) (buffer s).
Proof.
  intros Hsize Hdup Hr. change (window_ok cfg s).
  induction Hr as [s1 H|s s' _ IH _ H|s s' _ IH _ H|s j tofix _ IH _ Hi Hlt Hj
                  |s s' _ IH _ H|s s' _ IH _ H].
  - unfold readFrame in H. destruct (Mat_empty _); [discriminate|].
    injection H as <-. split; cbn; [lia|].
    constructor; [simpl; lia|constructor].
  - eapply fill_step_window; eauto.
  - destruct IH as [Hlen Hc]. apply drift_check_buffer in H.
    split; rewrite H; assumption.
  - destruct IH as [Hlen Hc]. split; cbn.
    + rewrite length_transfer. exact Hlen.
    + apply Forall_transfer; [exact Hc|]. intros d Hd.
      eapply (donor_spare (duplicate_count cfg) (buffer s) (priority tofix));
        [exact Hdup| |exact Hd].
      destruct Hj as [Hj|[_ Hj]]; [left|right]; exact Hj.
  - eapply correcting_window; eauto.
  - eapply evict_window; eauto.
Qed.

(** ** The loops end, and their states are states of a run *)

Section Loops.

Variable toComp : Mat -> Mat.
Variable stdevAbsdiff : Mat -> Mat -> float.
Variable cfg : Config.

(** What one round of the filling loop does to the stream and the flags. *)
Lemma fill_step_stream (s s' : State) :
  fill_step toComp stdevAbsdiff cfg s = Ok s' ->
  CAP s' = tail (CAP s) /\ VIDEO s' = VIDEO s /\ WRITE_INDEX s' = WRITE_INDEX s /\
  READ_INDEX s' = READ_INDEX s + 1 /\
  ((Mat_empty (hd [] (CAP s)) = true /\ FINISHED s' = true /\ full s' = true /\
    buffer s' = buffer s /\ THRESH s' = THRESH s /\ tempframe s' = hd [] (CAP s) /\
    compframe s' = compframe s /\ stdev s' = stdev s) \/
   (Mat_empty (hd [] (CAP s)) = false /\ FINISHED s' = FINISHED s)).
Proof.
  intros H. unfold fill_step, readFrame in H. cbn in H.
  destruct (Mat_empty (hd [] (CAP s))) eqn:Em.
  { injection H as <-. cbn. repeat split. left. repeat split. }
  cbn in H. destruct (last (buffer s)) as [back|]; [|discriminate].
  destruct (_ <? _)%float.
  - destruct (_ =? _); injection H as <-; cbn; repeat split; right; split; reflexivity.
  - destruct (_ <? _); injection H as <-; cbn; repeat split; right; split; reflexivity.
Qed.

Lemma filling_full fuel (s s' : State) :
  filling toComp stdevAbsdiff cfg fuel s = Ok s' ->
  full s' = true /\ (length (CAP s') <= length (CAP s))%nat /\
  (full s = false ->
   FINISHED s' = true \/ (length (CAP s') < length (CAP s))%nat).
Proof.
  revert s. induction fuel as [|k IH]; intros s H; simpl in H.
  - destruct (full s) eqn:E; [|discriminate]. injection H as <-.
    split; [exact E|]. split; [lia|discriminate].
  - destruct (full s) eqn:E.
    { injection H as <-. split; [exact E|]. split; [lia|discriminate]. }
    destruct (fill_step toComp stdevAbsdiff cfg s) as [s1| |] eqn:E1; try discriminate.
    cbn in H. destruct (IH _ H) as (Hf & Hle & Hlt).
    destruct (fill_step_stream _ _ E1) as (Hc & _ & _ & _ & Hcase).
    rewrite Hc in Hle. split; [exact Hf|].
    destruct Hcase as [(_ & Hfin & Hfull & _)|(Hne & _)].
    + destruct k; simpl in H; rewrite Hfull in H; injection H as <-.
      * split; [rewrite Hc; destruct (CAP s); simpl; lia|auto].
      * split; [rewrite Hc; destruct (CAP s); simpl; lia|auto].
    + destruct (CAP s) as [|m r]; [discriminate|]. simpl in *.
      split; [lia|]. intros _. right. lia.
Qed.

Lemma filling_no_timeout fuel (s : State) :
  (length (CAP s) < fuel)%nat ->
  filling toComp stdevAbsdiff cfg fuel s <> Timeout.
Proof.
  revert s. induction fuel as [|k IH]; intros s Hlt; [lia|]. simpl.
  destruct (full s); [discriminate|].
  destruct (fill_step toComp stdevAbsdiff cfg s) as [s1| |] eqn:E1; cbn; [|discriminate|].
  - destruct (fill_step_stream _ _ E1) as (Hc & _ & _ & _ & Hcase).
    destruct Hcase as [(_ & _ & Hfull & _)|(Hne & _)].
    + destruct k; simpl; rewrite Hfull; discriminate.
    + apply IH. rewrite Hc. destruct (CAP s); [discriminate|]. simpl in *. lia.
  - exfalso. unfold fill_step, readFrame in E1.
    destruct (Mat_empty _); [discriminate|]. cbn in E1.
    destruct (last _); [|discriminate].
    destruct (_ <? _)%float; [destruct (_ =? _)|destruct (_ <? _)]; discriminate.
Qed.

Lemma cycle_progress (s s' : State) :
  full s = false ->
  cycle toComp stdevAbsdiff cfg s = Ok s' ->
  full s' = false /\
  (FINISHED s' = true \/ (length (CAP s') < length (CAP s))%nat).
Proof.
  intros Hfull H. unfold cycle in H.
  destruct (filling _ _ _ _ s) as [s1| |] eqn:E1; try discriminate. cbn in H.
  destruct (drift_check cfg s1) as [s2| |] eqn:E2; try discriminate. cbn in H.
  destruct (correcting cfg s2) as [s3| |] eqn:E3; try discriminate. cbn in H.
  destruct (filling_full _ _ _ E1) as (_ & _ & Hprog). specialize (Hprog Hfull).
  destruct (drift_check_same _ _ _ E2) as [(Hc2 & _ & _ & _ & _ & Hf2 & _) _].
  destruct (correcting_same _ _ _ E3) as [(Hc3 & _ & _ & _ & _ & Hf3 & _) _].
  apply evict_eq in H as (front & rest & _ & ->). cbn.
  split; [reflexivity|]. rewrite Hc3, Hc2, Hf3, Hf2. exact Hprog.
Qed.

Lemma cycle_no_timeout (s : State) :
  cycle toComp stdevAbsdiff cfg s <> Timeout.
Proof.
  unfold cycle.
  pose proof (filling_no_timeout (S (length (CAP s))) s (Nat.lt_succ_diag_r _)) as Hf.
  destruct (filling _ _ _ _ s) as [s1| |]; [|discriminate|congruence]. cbn.
  destruct (drift_check cfg s1) as [s2| |] eqn:E2; cbn; [|discriminate|].
  - destruct (correcting cfg s2) as [s3| |] eqn:E3; cbn; [|discriminate|].
    + unfold evict. destruct (buffer s3); discriminate.
    + unfold correcting in E3.
      destruct (_ <? _); [destruct (_ !! _); discriminate|].
      destruct (_ <=? _); [destruct (cut_frames _ _ _ _)|destruct (add_frames _ _ _ _)];
        discriminate.
  - unfold drift_check in E2. cbn in E2.
    destruct (_ <=? _); [destruct (buffer s1)|]; discriminate.
Qed.

(** The main loop needs no more rounds than the stream has frames, and one. *)
Lemma main_loop_no_timeout fuel (s : State) :
  full s = false -> (length (CAP s) < fuel)%nat ->
  main_loop toComp stdevAbsdiff cfg fuel s <> Timeout.
Proof.
  revert s. induction fuel as [|k IH]; intros s Hfull Hlt; [lia|]. simpl.
  destruct (FINISHED s); [discriminate|].
  pose proof (cycle_no_timeout s) as Hc.
  destruct (cycle toComp stdevAbsdiff cfg s) as [s'| |] eqn:E; cbn;
    [|discriminate|congruence].
  destruct (cycle_progress _ _ Hfull E) as [Hf' [Hfin|Hless]].
  - destruct k; simpl; rewrite Hfin; discriminate.
  - apply IH; [exact Hf'|lia].
Qed.

Lemma main_loop_FINISHED fuel (s s' : State) :
  main_loop toComp stdevAbsdiff cfg fuel s = Ok s' -> FINISHED s' = true.
Proof.
  revert s. induction fuel as [|k IH]; intros s H; simpl in H.
  - destruct (FINISHED s) eqn:E; [injection H as <-; exact E|discriminate].
  - destruct (FINISHED s) eqn:E; [injection H as <-; exact E|].
    destruct (cycle toComp stdevAbsdiff cfg s) as [s1| |]; try discriminate.
    cbn in H. eapply IH; eauto.
Qed.

Variable t : Threshold.
Variable src : list Mat.

Lemma filling_reachable fuel (s s' : State) :
  reachable toComp stdevAbsdiff cfg t src s ->
  filling toComp stdevAbsdiff cfg fuel s = Ok s' ->
  reachable toComp stdevAbsdiff cfg t src s'.
Proof.
  revert s. induction fuel as [|k IH]; intros s Hr H; simpl in H.
  - destruct (full s); [injection H as <-; exact Hr|discriminate].
  - destruct (full s) eqn:E; [injection H as <-; exact Hr|].
    destruct (fill_step toComp stdevAbsdiff cfg s) as [s1| |] eqn:E1; try discriminate.
    cbn in H. apply (IH s1); [|exact H]. eapply reach_fill; eauto.
Qed.

Lemma cycle_reachable (s s' : State) :
  reachable toComp stdevAbsdiff cfg t src s ->
  cycle toComp stdevAbsdiff cfg s = Ok s' ->
  reachable toComp stdevAbsdiff cfg t src s'.
Proof.
  intros Hr H. unfold cycle in H.
  destruct (filling _ _ _ _ s) as [s1| |] eqn:E1; try discriminate. cbn in H.
  destruct (drift_check cfg s1) as [s2| |] eqn:E2; try discriminate. cbn in H.
  destruct (correcting cfg s2) as [s3| |] eqn:E3; try discriminate. cbn in H.
  destruct (filling_full _ _ _ E1) as (Hf1 & _).
  destruct (drift_check_same _ _ _ E2) as [(_ & _ & _ & _ & _ & _ & _ & _ & _ & Hf2) _].
  destruct (correcting_same _ _ _ E3) as [(_ & _ & _ & _ & _ & _ & _ & _ & _ & Hf3) _].
  pose proof (filling_reachable _ _ _ Hr E1) as R1.
  assert (R2 : reachable toComp stdevAbsdiff cfg t src s2)
    by (eapply reach_drift; eauto).
  assert (R3 : reachable toComp stdevAbsdiff cfg t src s3)
    by (eapply reach_correct; eauto; congruence).
  eapply reach_evict; eauto; congruence.
Qed.

Lemma main_loop_reachable fuel (s s' : State) :
  reachable toComp stdevAbsdiff cfg t src s ->
  main_loop toComp stdevAbsdiff cfg fuel s = Ok s' ->
  reachable toComp stdevAbsdiff cfg t src s'.
Proof.
  revert s. induction fuel as [|k IH]; intros s Hr H; simpl in H.
  - destruct (FINISHED s); [injection H as <-; exact Hr|discriminate].
  - destruct (FINISHED s); [injection H as <-; exact Hr|].
    destruct (cycle toComp stdevAbsdiff cfg s) as [s1| |] eqn:E1; try discriminate.
    cbn in H. apply (IH s1); [|exact H]. eapply cycle_reachable; eauto.
Qed.

(** X1.  [main] comes to an end on every stream: with a result, or in
    undefined behaviour; its loops never need more rounds than the stream has
    frames, and one. *)
Theorem main_no_timeout : main toComp stdevAbsdiff cfg t src <> Timeout.
Proof.
  unfold main, main_state.
  destruct (readFrame toComp (boot t src)) as [ok s1] eqn:E.
  assert (Hfull : full s1 = false).
  { unfold readFrame in E. destruct (Mat_empty _); injection E as _ <-; reflexivity. }
  destruct ok; [|cbn; discriminate].
  pose proof (main_loop_no_timeout (S (length (CAP s1))) (first_frame s1) Hfull) as Hm.
  destruct (main_loop toComp stdevAbsdiff cfg (S (length (CAP s1))) (first_frame s1))
    as [s2| |]; [cbn; discriminate|cbn; discriminate|].
  exfalso. apply Hm; [|reflexivity]. cbn. lia.
Qed.

End Loops.

(** ** Cancellation *)

Section Cancel.

Variable toComp : Mat -> Mat.
Variable stdevAbsdiff : Mat -> Mat -> float.
Variable cfg : Config.
Variable t : Threshold.
Variable src : list Mat.

Lemma reachable_write_ok (s : State) :
  reachable toComp stdevAbsdiff cfg t src s -> write_ok s.
Proof.
  unfold write_ok.
  induction 1 as [s1 H|s s' _ IH _ H|s s' _ IH _ H|s j tofix _ IH _ _ _ _
                 |s s' _ IH _ H|s s' _ IH _ H].
  - unfold readFrame in H. destruct (Mat_empty _); [discriminate|].
    injection H as <-. reflexivity.
  - destruct (fill_step_stream _ _ _ _ _ H) as (_ & -> & -> & _). exact IH.
  - destruct (drift_check_same _ _ _ H) as [(_ & -> & _ & -> & _) _]. exact IH.
  - exact IH.
  - destruct (correcting_same _ _ _ H) as [(_ & -> & _ & -> & _) _]. exact IH.
  - apply evict_eq in H as (front & rest & _ & ->). cbn.
    rewrite length_app, length_replicate. lia.
Qed.

Lemma fill_n_reachable n (s s' : State) :
  reachable toComp stdevAbsdiff cfg t src s ->
  fill_n toComp stdevAbsdiff cfg n s = Ok s' ->
  reachable toComp stdevAbsdiff cfg t src s'.
Proof.
  revert s. induction n as [|k IH]; intros s Hr H; simpl in H.
  - injection H as <-. exact Hr.
  - destruct (full s) eqn:E; [injection H as <-; exact Hr|].
    destruct (fill_step toComp stdevAbsdiff cfg s) as [s1| |] eqn:E1; try discriminate.
    cbn in H. apply (IH s1); [|exact H]. eapply reach_fill; eauto.
Qed.

Lemma started_reachable :
  Mat_empty (hd [] src) = false ->
  reachable toComp stdevAbsdiff cfg t src (started toComp t src).
Proof.
  intros H. unfold started. apply reach_first.
  unfold readFrame. cbn. rewrite H. reflexivity.
Qed.

End Cancel.

Lemma scenarioD_reachable :
  reachable sample_toComp sample_stdev default_Config default_THRESH srcD scenarioD.
Proof.
  apply (fill_n_reachable _ _ _ _ _ 7 (started sample_toComp default_THRESH srcD)).
  - apply started_reachable. reflexivity.
  - vm_compute. reflexivity.
Qed.

(** C4, as the specification states it, fails: interrupted with records
    written 2, 1, 3 and 2 times in the buffer, the program leaves through
    [exit(1)] with none of them in the output. *)
Lemma C4_cancel_counterexample :
  map count (buffer scenarioD) = [2; 1; 3; 2] /\
  reachable sample_toComp sample_stdev default_Config default_THRESH srcD scenarioD /\
  output (signal_handler scenarioD).2 = [] /\
  status (signal_handler scenarioD).2 = 1 /\
  VIDEO (flush (buffer scenarioD) scenarioD)
    = [frameA; frameA; frameB; frameC; frameC; frameC; frameD; frameD] /\
  ~ cancel_flushes scenarioD.
Proof.
  split; [reflexivity|]. split; [exact scenarioD_reachable|].
  split; [reflexivity|]. split; [reflexivity|]. split; [reflexivity|].
  intros [H _]. vm_compute in H. discriminate H.
Qed.

(** C4, amended.  In every state of a run, the interrupt handler sets
    [FINISHED] and ends the process with status 1; the output is what it was,
    the [WRITE_INDEX] frames written before, and the buffer is left as it is:
    no record of it is written. *)
Theorem C4_cancel_exits toComp stdevAbsdiff (cfg : Config) (t : Threshold)
    (src : list Mat) (s : State) :
  reachable toComp stdevAbsdiff cfg t src s ->
  status (signal_handler s).2 = 1 /\
  output (signal_handler s).2 = VIDEO s /\
  Z.of_nat (length (output (signal_handler s).2)) = WRITE_INDEX s /\
  FINISHED (signal_handler s).1 = true /\
  buffer (signal_handler s).1 = buffer s.
Proof.
  intros Hr. apply reachable_write_ok in Hr. unfold write_ok in Hr.
  cbn. rewrite Hr. repeat split.
Qed.

(** ** The threshold against the open record *)

(** Whatever the two threshold options, the run starts on the strict
    threshold. *)
Lemma update_THRESH_strict (threshold_strict threshold_relaxed : float) :
  value (update_THRESH threshold_strict threshold_relaxed)
  = strict (update_THRESH threshold_strict threshold_relaxed).
Proof.
  unfold update_THRESH. destruct (0 <? threshold_strict)%float; reflexivity.
Qed.

Section Hysteresis.

Variable toComp : Mat -> Mat.
Variable stdevAbsdiff : Mat -> Mat -> float.
Variable cfg : Config.
Variable t : Threshold.
Variable src : list Mat.

Lemma fill_step_threshold (s s' : State) :
  2 <= duplicate_count cfg ->
  full s = false ->
  threshold_ok cfg t s ->
  fill_step toComp stdevAbsdiff cfg s = Ok s' ->
  threshold_ok cfg t s'.
Proof.
  intros Hdup Hfull (Hs & Hr & Hk) H. unfold fill_step, readFrame in H.
  destruct (Mat_empty (tempframe (grab s))).
  { injection H as <-. repeat split; try assumption. discriminate. }
  cbn in H. destruct (last (buffer s)) as [back|] eqn:Eb; [|discriminate].
  rewrite Hfull in Hk.
  destruct (_ <? _)%float.
  - assert (Hv : FINISHED s = false ->
              value (THRESH s) =
                if duplicate_count cfg <=? count back then relaxed t else strict t).
    { intros Hfin. destruct (Hk Hfin) as (open & Ho & Hv).
      rewrite Eb in Ho. injection Ho as <-. exact Hv. }
    destruct (count back + 1 =? duplicate_count cfg) eqn:E; injection H as <-;
      (split; [exact Hs|]; split; [exact Hr|]); state_simpl;
      rewrite Hfull; intros Hfin; specialize (Hv Hfin);
      exists (set_count (count back + 1) back); state_simpl;
      (split; [rewrite last_on_back, Eb; reflexivity|]).
    + apply Z.eqb_eq in E.
      destruct (duplicate_count cfg <=? count back + 1) eqn:E'; [exact Hr|].
      apply Z.leb_gt in E'. lia.
    + apply Z.eqb_neq in E. rewrite Hv.
      destruct (duplicate_count cfg <=? count back) eqn:E1;
        destruct (duplicate_count cfg <=? count back + 1) eqn:E2; try reflexivity;
        [apply Z.leb_le in E1|apply Z.leb_gt in E1];
        [apply Z.leb_gt in E2|apply Z.leb_le in E2]; lia.
  - destruct (Z.of_nat (length (buffer s)) <? buffer_size cfg); injection H as <-;
      (split; [exact Hs|]; split; [exact Hr|]); state_simpl; intros _; [|exact Hs].
    rewrite Hfull. eexists. state_simpl. split; [apply last_snoc|]. state_simpl.
    destruct (duplicate_count cfg <=? 1) eqn:E; [apply Z.leb_le in E; lia|exact Hs].
Qed.

Lemma reachable_threshold_ok (s : State) :
  2 <= duplicate_count cfg ->
  value t = strict t ->
  reachable toComp stdevAbsdiff cfg t src s ->
  threshold_ok cfg t s.
Proof.
  intros Hdup Ht.
  assert (Hone : (duplicate_count cfg <=? 1) = false) by (apply Z.leb_gt; lia).
  induction 1 as [s1 H|s s' _ IH Hf H|s s' _ IH Hf H|s j tofix _ IH Hf _ _ _
                 |s s' _ IH Hf H|s s' _ IH Hf H].
  - unfold readFrame in H. destruct (Mat_empty _); [discriminate|].
    injection H as <-. repeat split. intros _. cbn.
    eexists. split; [reflexivity|]. cbn. rewrite Hone. exact Ht.
  - eapply fill_step_threshold; eauto.
  - destruct (drift_check_same _ _ _ H) as [(_ & _ & HT & _ & _ & HF & _ & _ & _ & Hfu) _].
    unfold threshold_ok in *. rewrite HT, HF, Hfu. rewrite Hf in *. exact IH.
  - unfold threshold_ok in *. cbn. rewrite Hf in *. exact IH.
  - destruct (correcting_same _ _ _ H) as [(_ & _ & HT & _ & _ & HF & _ & _ & _ & Hfu) _].
    unfold threshold_ok in *. rewrite HT, HF, Hfu. rewrite Hf in *. exact IH.
  - apply evict_eq in H as (front & rest & _ & ->).
    destruct IH as (Hs & Hr & Hk). rewrite Hf in Hk.
    split; [exact Hs|]. split; [exact Hr|]. cbn. intros Hfin.
    eexists. split; [apply last_snoc|]. cbn. rewrite Hone. exact (Hk Hfin).
Qed.

End Hysteresis.

(** C6, as the specification states it for every positive
    [duplicate_count], fails at 1: the open record is at [duplicate_count]
    from the moment it is entered, and the threshold in force is the strict
    one.  A second frame that scores between the two thresholds is counted as a
    duplicate, which the relaxed threshold would have refused. *)
Lemma C6_hysteresis_counterexample :
  let cfg := mkConfig 7 5 1 in
  let s := started sample_toComp default_THRESH [frameA; frameA'] in
  0 < duplicate_count cfg /\
  reachable sample_toComp sample_stdev cfg default_THRESH [frameA; frameA'] s /\
  FINISHED s = false /\ full s = false /\
  map count (buffer s) = [1] /\
  ~ hysteresis cfg default_THRESH s /\
  (sample_stdev frameA frameA' <? relaxed default_THRESH)%float = false /\
  match fill_step sample_toComp sample_stdev cfg s with
  | Ok s' => map count (buffer s') = [2]
  | _ => False
  end.
Proof.
  intros cfg s. split; [reflexivity|].
  split; [apply started_reachable; reflexivity|].
  split; [reflexivity|]. split; [reflexivity|]. split; [reflexivity|].
  split; [|split; reflexivity].
  intros (open & Ho & Hv). injection Ho as <-. cbn in Hv.
  apply (f_equal (fun x => PrimFloat.eqb x 0.5%float)) in Hv.
  vm_compute in Hv. discriminate Hv.
Qed.

(** C6, amended to [duplicate_count] of 2 or more.  In a run that starts on
    the strict threshold, whenever the program is about to read a frame the
    threshold in force is the relaxed one if the count of the open record has
    reached [duplicate_count] and the strict one if it has not; a frame that
    matches raises that count, a frame that does not sets the threshold to
    strict and becomes the open record, at once or, the buffer being full,
    after the eviction that ends the round. *)
Theorem C6_hysteresis toComp stdevAbsdiff (cfg : Config) (t : Threshold)
    (src : list Mat) (s : State) :
  2 <= duplicate_count cfg ->
  value t = strict t ->
  reachable toComp stdevAbsdiff cfg t src s ->
  FINISHED s = false ->
  (full s = false -> hysteresis cfg t s) /\
  (full s = true -> value (THRESH s) = strict t) /\
  (full s = false ->
   forall open s', last (buffer s) = Some open ->
     fill_step toComp stdevAbsdiff cfg s = Ok s' -> FINISHED s' = false ->
     let frame := hd [] (CAP s) in
     if (stdevAbsdiff (comp open) (toComp frame) <? value (THRESH s))%float
     then full s' = false /\
          last (buffer s') = Some (set_count (count open + 1) open) /\
          value (THRESH s') =
            (if duplicate_count cfg <=? count open + 1 then relaxed t else strict t)
     else value (THRESH s') = strict t /\
          tempframe s' = frame /\
          (full s' = false ->
           exists f, last (buffer s') = Some f /\ count f = 1 /\ data f = frame)) /\
  (full s = true ->
   forall s', evict s = Ok s' ->
     full s' = false /\ value (THRESH s') = strict t /\
     exists f, last (buffer s') = Some f /\ count f = 1 /\ data f = tempframe s).
Proof.
  intros Hdup Ht Hr Hfin.
  pose proof (reachable_threshold_ok _ _ _ _ _ _ Hdup Ht Hr) as (Hs & Hrl & Hk).
  specialize (Hk Hfin).
  split; [intros Hf; rewrite Hf in Hk; exact Hk|].
  split; [intros Hf; rewrite Hf in Hk; exact Hk|].
  split.
  - intros Hf open s' Ho H Hfin'. rewrite Hf in Hk.
    destruct Hk as (o & Ho' & Hv). rewrite Ho in Ho'. injection Ho' as <-.
    unfold fill_step, readFrame in H. cbn in H.
    destruct (Mat_empty (hd [] (CAP s))).
    { injection H as <-. discriminate Hfin'. }
    cbn in H. rewrite Ho in H. cbv zeta.
    destruct (_ <? _)%float.
    + destruct (count open + 1 =? duplicate_count cfg) eqn:E; injection H as <-;
        state_simpl; (split; [exact Hf|]);
        (split; [rewrite last_on_back, Ho; reflexivity|]).
      * apply Z.eqb_eq in E. rewrite Hrl.
        destruct (duplicate_count cfg <=? count open + 1) eqn:E'; [reflexivity|].
        apply Z.leb_gt in E'. lia.
      * apply Z.eqb_neq in E. rewrite Hv.
        destruct (duplicate_count cfg <=? count open) eqn:E1;
          destruct (duplicate_count cfg <=? count open + 1) eqn:E2; try reflexivity;
          [apply Z.leb_le in E1|apply Z.leb_gt in E1];
          [apply Z.leb_gt in E2|apply Z.leb_le in E2]; lia.
    + destruct (Z.of_nat (length (buffer s)) <? buffer_size cfg); injection H as <-;
        state_simpl; (split; [exact Hs|]); (split; [reflexivity|]).
      * intros _. eexists. split; [apply last_snoc|]. split; reflexivity.
      * discriminate.
  - intros Hf s' H. rewrite Hf in Hk.
    apply evict_eq in H as (front & rest & _ & ->). state_simpl.
    split; [reflexivity|]. split; [exact Hk|].
    eexists. split; [apply last_snoc|]. split; reflexivity.
Qed.

(** ** The end of the stream *)

Lemma flush_app (l1 l2 : list Frame) (s : State) :
  flush (l1 ++ l2) s = flush l2 (flush l1 s).
Proof.
  revert s. induction l1 as [|f r IH]; intros s; [reflexivity|]. simpl. apply IH.
Qed.

Section EndOfStream.

Variable toComp : Mat -> Mat.
Variable stdevAbsdiff : Mat -> Mat -> float.
Variable cfg : Config.

(** The filling loop sets [FINISHED] only on a read that failed, and then the
    frame it holds is the empty one. *)
Lemma filling_finished fuel (s s' : State) :
  filling toComp stdevAbsdiff cfg fuel s = Ok s' ->
  FINISHED s = false -> FINISHED s' = true ->
  Mat_empty (tempframe s') = true /\ VIDEO s' = VIDEO s /\
  WRITE_INDEX s' = WRITE_INDEX s.
Proof.
  revert s. induction fuel as [|k IH]; intros s H Hfin Hfin'; simpl in H.
  - destruct (full s); [injection H as <-; congruence|discriminate].
  - destruct (full s); [injection H as <-; congruence|].
    destruct (fill_step toComp stdevAbsdiff cfg s) as [s1| |] eqn:E1; try discriminate.
    cbn in H.
    destruct (fill_step_stream _ _ _ _ _ E1) as (_ & Hv & Hw & _ & Hcase).
    destruct Hcase as [(He & _ & Hfull & _ & _ & Ht & _)|(_ & Hf1)].
    + destruct k; simpl in H; rewrite Hfull in H; injection H as <-;
        rewrite Ht; auto.
    + rewrite <- Hv, <- Hw. apply IH; [exact H|congruence|exact Hfin'].
Qed.

(** A round that comes to its end with [FINISHED] set: the stream ended in
    its filling; the round evicts the front record, writing it at its count,
    and then enters one more record, with the empty image of the read that
    failed and the count 1.  The main loop stops there, and the cleanup writes
    that record once, last. *)
Lemma end_of_stream_round (s s' : State) :
  FINISHED s = false ->
  cycle toComp stdevAbsdiff cfg s = Ok s' ->
  FINISHED s' = true ->
  exists s3 front rest,
    buffer s3 = front :: rest /\
    evict s3 = Ok s' /\
    VIDEO s' = VIDEO s ++ replicate (Z.to_nat (count front)) (data front) /\
    Mat_empty (tempframe s') = true /\
    buffer s' =
      rest ++ [mkFrame (tempframe s') (compframe s') 1 (stdev s') (READ_INDEX s')] /\
    (forall fuel, main_loop toComp stdevAbsdiff cfg fuel s' = Ok s') /\
    VIDEO (flush (buffer s') s') = VIDEO (flush rest s') ++ [tempframe s'] /\
    WRITE_INDEX (flush (buffer s') s') = WRITE_INDEX (flush rest s') + 1.
Proof.
  intros Hfin H Hfin'. unfold cycle in H.
  destruct (filling _ _ _ _ s) as [s1| |] eqn:E1; try discriminate. cbn in H.
  destruct (drift_check cfg s1) as [s2| |] eqn:E2; try discriminate. cbn in H.
  destruct (correcting cfg s2) as [s3| |] eqn:E3; try discriminate. cbn in H.
  destruct (drift_check_same _ _ _ E2)
    as [(_ & Hv2 & _ & _ & _ & Hf2 & Ht2 & _) _].
  destruct (correcting_same _ _ _ E3)
    as [(_ & Hv3 & _ & _ & _ & Hf3 & Ht3 & _) _].
  pose proof H as He. apply evict_eq in He as (front & rest & Hb & Hs').
  assert (Hfin1 : FINISHED s1 = true).
  { rewrite <- Hf2, <- Hf3. rewrite Hs' in Hfin'. exact Hfin'. }
  destruct (filling_finished _ _ _ E1 Hfin Hfin1) as (Hempty & Hv1 & _).
  exists s3, front, rest.
  split; [exact Hb|]. split; [exact H|].
  assert (Htemp : tempframe s' = tempframe s3) by (rewrite Hs'; reflexivity).
  split; [rewrite Hs'; state_simpl; rewrite Hv3, Hv2, Hv1; reflexivity|].
  split; [rewrite Htemp, Ht3, Ht2; exact Hempty|].
  split; [rewrite Hs'; reflexivity|].
  split.
  { intros [|k]; simpl; rewrite Hfin'; reflexivity. }
  assert (Hbuf : buffer s' =
            rest ++ [mkFrame (tempframe s') (compframe s') 1 (stdev s') (READ_INDEX s')])
    by (rewrite Hs'; reflexivity).
  assert (Hfl : flush (buffer s') s' = writeFrames (tempframe s') 1 (flush rest s')).
  { rewrite Hbuf at 1. rewrite flush_app. reflexivity. }
  rewrite Hfl. unfold writeFrames. rewrite writeFrames_loop_eq. state_simpl.
  split; reflexivity.
Qed.

End EndOfStream.

(** ** The middle of a buffer that did not fill *)

Lemma on_back_front f (front : Frame) (rest : list Frame) :
  (forall x, index (f x) = index x) ->
  exists front' rest',
    on_back f (front :: rest) = front' :: rest' /\ index front' = index front.
Proof.
  intros Hf. destruct rest as [|y r].
  - exists (f front), []. split; [reflexivity|apply Hf].
  - exists front, (on_back f (y :: r)). split; reflexivity.
Qed.

Section ShortStream.

Variable toComp : Mat -> Mat.
Variable stdevAbsdiff : Mat -> Mat -> float.
Variable cfg : Config.

Lemma fill_step_first_filling n (s : State) m r :
  Z.of_nat n <= buffer_size cfg ->
  first_filling n s -> CAP s = m :: r ->
  exists s', fill_step toComp stdevAbsdiff cfg s = Ok s' /\
    full s' = full s /\ FINISHED s' = FINISHED s /\ CAP s' = r /\
    first_filling n s'.
Proof.
  intros Hn (Hw & Hd & (front & rest & Hb & Hi) & Hlen & Hall) Hc.
  rewrite Hc in Hall, Hlen. inversion Hall as [|? ? Hm Hr]; subst.
  unfold fill_step, readFrame. cbn. rewrite Hc. cbn. rewrite Hm. cbn.
  destruct (last (buffer s)) as [back|] eqn:Eb;
    [|apply last_None in Eb; rewrite Hb in Eb; discriminate].
  destruct (_ <? _)%float.
  - destruct (on_back_front (fun f => set_count (count f + 1) f) front rest
                ltac:(reflexivity)) as (front' & rest' & Ho & Hi').
    assert (Hgoal : forall u, full u = full s -> FINISHED u = FINISHED s ->
              CAP u = r -> WRITE_INDEX u = 0 -> drift_update u = 0 ->
              buffer u = on_back (fun f => set_count (count f + 1) f) (buffer s) ->
              full u = full s /\ FINISHED u = FINISHED s /\ CAP u = r /\
              first_filling n u).
    { intros u H1 H2 H3 H4 H5 H6.
      split; [exact H1|]. split; [exact H2|]. split; [exact H3|].
      unfold first_filling. split; [exact H4|]. split; [exact H5|]. split; [|split].
      - exists front', rest'. rewrite H6, Hb, Ho, Hi'. auto.
      - rewrite H6, length_on_back, H3. simpl in Hlen. lia.
      - rewrite H3. exact Hr. }
    destruct (_ =? _); eexists; (split; [reflexivity|]); apply Hgoal;
      state_simpl; auto; rewrite Hc; reflexivity.
  - simpl in Hlen.
    destruct (Z.of_nat (length (buffer s)) <? buffer_size cfg) eqn:E;
      [|apply Z.ltb_ge in E; lia].
    eexists. split; [reflexivity|].
    split; [reflexivity|]. split; [reflexivity|].
    split; [state_simpl; rewrite Hc; reflexivity|].
    unfold first_filling. state_simpl. rewrite Hc. cbn [tail].
    split; [exact Hw|]. split; [exact Hd|]. split; [|split; [|exact Hr]].
    + rewrite Hb. eexists front, _. split; [simpl; reflexivity|exact Hi].
    + rewrite length_app. simpl. lia.
Qed.

Lemma filling_first_filling fuel n (s : State) :
  Z.of_nat n <= buffer_size cfg ->
  full s = false -> FINISHED s = false ->
  first_filling n s -> (length (CAP s) < fuel)%nat ->
  exists s1, filling toComp stdevAbsdiff cfg fuel s = Ok s1 /\
    FINISHED s1 = true /\ WRITE_INDEX s1 = 0 /\ drift_update s1 = 0 /\
    (exists front rest, buffer s1 = front :: rest /\ index front = 0) /\
    (length (buffer s1) <= n)%nat.
Proof.
  intros Hn. revert s. induction fuel as [|k IH]; intros s Hfull Hfin Hp Hlt; [lia|].
  simpl. rewrite Hfull.
  destruct (CAP s) as [|m r] eqn:Hc.
  - destruct Hp as (Hw & Hd & Hfront & Hlen & _).
    unfold fill_step, readFrame. cbn. rewrite Hc. cbn.
    exists (set_FINISHED true (set_full true (grab s))).
    split; [destruct k; reflexivity|]. state_simpl.
    repeat (split; [reflexivity || assumption|]). lia.
  - destruct (fill_step_first_filling n s m r Hn Hp Hc)
      as (s' & Hs' & Hf' & Hfin' & Hc' & Hp').
    rewrite Hs'. cbn. apply IH; [congruence|congruence|exact Hp'|].
    rewrite Hc'. simpl in Hlt. lia.
Qed.

(** C9 fails on the program.  On every stream that has no more frames than
    [buffer_size / 2], the first filling ends on the end of the stream; the
    drift is 0, within any positive bound; the buffer holds at most as many
    records as the stream had frames, and the correction steps to position
    [buffer_size / 2], at or past its end. *)
Theorem C9_middle_out_of_bounds (t : Threshold) (src : list Mat) :
  let s0 := started toComp t src in
  0 < adjustment_bound cfg ->
  src <> [] ->
  Forall (fun m => Mat_empty m = false) src ->
  Z.of_nat (length src) <= Z.quot (buffer_size cfg) 2 ->
  exists s1 s2,
    filling toComp stdevAbsdiff cfg (S (length (CAP s0))) s0 = Ok s1 /\
    FINISHED s1 = true /\
    drift_check cfg s1 = Ok s2 /\
    Z.abs (DRIFT s2) < adjustment_bound cfg /\
    (length (buffer s2) <= Z.to_nat (Z.quot (buffer_size cfg) 2))%nat /\
    buffer s2 !! Z.to_nat (Z.quot (buffer_size cfg) 2) = None /\
    correcting cfg s2 = Undefined /\
    main toComp stdevAbsdiff cfg t src = Undefined.
Proof.
  intros s0 Hb Hne Hall Hlen.
  destruct src as [|m r]; [congruence|]. inversion Hall as [|? ? Hm Hr]; subst.
  assert (Hread : readFrame toComp (boot t (m :: r))
                  = (true, set_compframe (toComp m) (grab (boot t (m :: r))))).
  { unfold readFrame. cbn. rewrite Hm. reflexivity. }
  assert (Hs0 : s0 = first_frame (set_compframe (toComp m) (grab (boot t (m :: r))))).
  { unfold s0, started. rewrite Hread. reflexivity. }
  assert (Hsize : Z.of_nat (length (m :: r)) <= buffer_size cfg).
  { pose proof (Z.quot_pos (buffer_size cfg) 2) as Hq.
    destruct (Z_lt_le_dec (buffer_size cfg) 0) as [Hneg|Hpos].
    - pose proof (Z.quot_opp_l (- buffer_size cfg) 2 ltac:(lia)) as Ho.
      rewrite Z.opp_involutive in Ho.
      pose proof (Z.quot_pos (- buffer_size cfg) 2 ltac:(lia) ltac:(lia)).
      simpl length in *. lia.
    - pose proof (Z.quot_le_upper_bound (buffer_size cfg) 2 (buffer_size cfg)
                    ltac:(lia) ltac:(lia)).
      lia. }
  assert (Hp : first_filling (length (m :: r)) s0).
  { rewrite Hs0. unfold first_filling. state_simpl. cbn [boot CAP tail].
    split; [reflexivity|]. split; [reflexivity|]. split; [|split; [|exact Hr]].
    - eexists _, []. split; [reflexivity|]. reflexivity.
    - simpl. lia. }
  destruct (filling_first_filling (S (length (CAP s0))) _ s0 Hsize)
    as (s1 & E1 & Hfin & Hw & Hd & (front & rest & Hbuf & Hi) & Hl);
    [rewrite Hs0; reflexivity|rewrite Hs0; reflexivity|exact Hp|lia|].
  assert (E2 : drift_check cfg s1
               = Ok (set_drift_update (buffer_size cfg)
                       (set_DRIFT 0 (set_drift_update (drift_update s1 - 1) s1)))).
  { unfold drift_check. state_simpl. rewrite Hd. cbn [Z.leb Z.sub Z.add Z.opp Z.compare Z.pos_sub].
    rewrite Hbuf, Hw, Hi. reflexivity. }
  assert (Hnone : buffer s1 !! Z.to_nat (Z.quot (buffer_size cfg) 2) = None).
  { apply lookup_ge_None. lia. }
  assert (E3 : correcting cfg (set_drift_update (buffer_size cfg)
                 (set_DRIFT 0 (set_drift_update (drift_update s1 - 1) s1))) = Undefined).
  { unfold correcting. state_simpl.
    destruct (Z.abs 0 <? adjustment_bound cfg) eqn:E; [|apply Z.ltb_ge in E; simpl in E; lia].
    rewrite Hnone. reflexivity. }
  eexists s1, _. split; [exact E1|]. split; [exact Hfin|]. split; [exact E2|].
  state_simpl. split; [simpl; lia|]. split; [lia|]. split; [exact Hnone|].
  split; [exact E3|].
  unfold main, main_state. rewrite Hread. cbn [mbind result_bind].
  fold (first_frame (set_compframe (toComp m) (grab (boot t (m :: r))))).
  rewrite <- Hs0.
  assert (Hcap : CAP (set_compframe (toComp m) (grab (boot t (m :: r)))) = CAP s0)
    by (rewrite Hs0; reflexivity).
  rewrite Hcap.
  assert (Hloop : main_loop toComp stdevAbsdiff cfg (S (length (CAP s0))) s0 = Undefined).
  { cbn [main_loop].
    assert (Hf0 : FINISHED s0 = false) by (rewrite Hs0; reflexivity).
    rewrite Hf0. unfold cycle. rewrite E1. cbn [mbind result_bind].
    rewrite E2. cbn [mbind result_bind]. rewrite E3. reflexivity. }
  rewrite Hloop. reflexivity.
Qed.

(** A round whose filling ends with nothing written yet, the drift check due,
    and no record at position [buffer_size / 2] does not reach its
    eviction. *)
Lemma cycle_short_buffer (s s1 : State) :
  0 < adjustment_bound cfg ->
  filling toComp stdevAbsdiff cfg (S (length (CAP s))) s = Ok s1 ->
  WRITE_INDEX s1 = 0 -> drift_update s1 = 0 ->
  (exists front rest, buffer s1 = front :: rest /\ index front = 0) ->
  (length (buffer s1) <= Z.to_nat (Z.quot (buffer_size cfg) 2))%nat ->
  cycle toComp stdevAbsdiff cfg s = Undefined.
Proof.
  intros Hb E1 Hw Hd (front & rest & Hbuf & Hi) Hl.
  unfold cycle. rewrite E1. cbn [mbind result_bind].
  assert (E2 : drift_check cfg s1
               = Ok (set_drift_update (buffer_size cfg)
                       (set_DRIFT 0 (set_drift_update (drift_update s1 - 1) s1)))).
  { unfold drift_check. state_simpl. rewrite Hd.
    cbn [Z.leb Z.sub Z.add Z.opp Z.compare Z.pos_sub].
    rewrite Hbuf, Hw, Hi. reflexivity. }
  rewrite E2. cbn [mbind result_bind].
  unfold correcting. state_simpl.
  destruct (Z.abs 0 <? adjustment_bound cfg) eqn:E;
    [|apply Z.ltb_ge in E; simpl in E; lia].
  rewrite (proj2 (lookup_ge_None (buffer s1) _) Hl). reflexivity.
Qed.

(** C10 fails on the program.  On every stream that has no more frames than
    [buffer_size / 2], the stream ends during the first filling: the filling
    loop sets [FINISHED] on the read that failed, with the empty image in
    [tempframe].  The round does not go on to its eviction: the correction
    steps past the end of the buffer before it, so no front record is written,
    no record is entered for the read that failed, and the cleanup is never
    reached.  This is the defect of C9. *)
Theorem C10_end_of_stream_out_of_bounds (t : Threshold) (src : list Mat) :
  let s0 := started toComp t src in
  0 < adjustment_bound cfg ->
  src <> [] ->
  Forall (fun m => Mat_empty m = false) src ->
  Z.of_nat (length src) <= Z.quot (buffer_size cfg) 2 ->
  exists s1,
    filling toComp stdevAbsdiff cfg (S (length (CAP s0))) s0 = Ok s1 /\
    FINISHED s1 = true /\
    Mat_empty (tempframe s1) = true /\
    cycle toComp stdevAbsdiff cfg s0 = Undefined /\
    main_loop toComp stdevAbsdiff cfg (S (length (CAP s0))) s0 = Undefined /\
    main toComp stdevAbsdiff cfg t src = Undefined.
Proof.
  intros s0 Hb Hne Hall Hlen.
  destruct src as [|m r]; [congruence|]. inversion Hall as [|? ? Hm Hr]; subst.
  assert (Hread : readFrame toComp (boot t (m :: r))
                  = (true, set_compframe (toComp m) (grab (boot t (m :: r))))).
  { unfold readFrame. cbn. rewrite Hm. reflexivity. }
  assert (Hs0 : s0 = first_frame (set_compframe (toComp m) (grab (boot t (m :: r))))).
  { unfold s0, started. rewrite Hread. reflexivity. }
  assert (Hf0 : FINISHED s0 = false) by (rewrite Hs0; reflexivity).
  assert (Hq : 0 <= Z.quot (buffer_size cfg) 2 <= buffer_size cfg).
  { simpl length in Hlen.
    destruct (Z_lt_le_dec (buffer_size cfg) 0) as [Hneg|Hpos].
    - pose proof (Z.quot_opp_l (- buffer_size cfg) 2 ltac:(lia)) as Ho.
      rewrite Z.opp_involutive in Ho.
      pose proof (Z.quot_pos (- buffer_size cfg) 2 ltac:(lia) ltac:(lia)). lia.
    - pose proof (Z.quot_pos (buffer_size cfg) 2 Hpos ltac:(lia)).
      pose proof (Z.quot_le_upper_bound (buffer_size cfg) 2 (buffer_size cfg)
                    ltac:(lia) ltac:(lia)).
      lia. }
  assert (Hp : first_filling (length (m :: r)) s0).
  { rewrite Hs0. unfold first_filling. state_simpl. cbn [boot CAP tail].
    split; [reflexivity|]. split; [reflexivity|]. split; [|split; [|exact Hr]].
    - eexists _, []. split; [reflexivity|]. reflexivity.
    - simpl. lia. }
  assert (Hsize : Z.of_nat (length (m :: r)) <= buffer_size cfg) by lia.
  destruct (filling_first_filling (S (length (CAP s0))) _ s0 Hsize)
    as (s1 & E1 & Hfin & Hw & Hd & Hfront & Hl);
    [rewrite Hs0; reflexivity|exact Hf0|exact Hp|lia|].
  destruct (filling_finished _ _ _ _ _ _ E1 Hf0 Hfin) as (Hempty & _).
  assert (Hc : cycle toComp stdevAbsdiff cfg s0 = Undefined).
  { apply (cycle_short_buffer s0 s1 Hb E1 Hw Hd Hfront). lia. }
  assert (Hloop : main_loop toComp stdevAbsdiff cfg (S (length (CAP s0))) s0 = Undefined).
  { cbn [main_loop]. rewrite Hf0, Hc. reflexivity. }
  exists s1. split; [exact E1|]. split; [exact Hfin|]. split; [exact Hempty|].
  split; [exact Hc|]. split; [exact Hloop|].
  unfold main, main_state. rewrite Hread. cbn [mbind result_bind].
  fold (first_frame (set_compframe (toComp m) (grab (boot t (m :: r))))).
  rewrite <- Hs0.
  assert (Hcap : CAP (set_compframe (toComp m) (grab (boot t (m :: r)))) = CAP s0)
    by (rewrite Hs0; reflexivity).
  rewrite Hcap, Hloop. reflexivity.
Qed.

End ShortStream.

(** ** Match groups of 2, 1 and 2 frames *)

(** The frames A, A, B, C, C under the sample differencer: with a
    [buffer_size] of 3, 4 or 5 the program ends and B is in the output, which
    has six images: five of the stream and the empty one entered at the end of
    the stream. *)
Lemma scenarioA_small_buffers :
  let src := [frameA; frameA; frameB; frameC; frameC] in
  let run := fun size =>
    main sample_toComp sample_stdev (mkConfig size 5 2) default_THRESH src in
  run 5 = Ok (mkExit 0 [frameA; frameA; frameB; frameC; frameC; []]) /\
  run 4 = Ok (mkExit 0 [frameA; frameA; frameB; frameC; frameC; []]) /\
  run 3 = Ok (mkExit 0 [frameA; frameA; frameB; frameB; frameC; []]).
Proof.
  intros src run. unfold run, src.
  split; [vm_compute; reflexivity|].
  split; vm_compute; reflexivity.
Qed.

Lemma filling_step toComp stdevAbsdiff cfg fuel (s s' : State) :
  full s = false ->
  fill_step toComp stdevAbsdiff cfg s = Ok s' ->
  filling toComp stdevAbsdiff cfg (S fuel) s = filling toComp stdevAbsdiff cfg fuel s'.
Proof. intros Hf H. simpl. rewrite Hf, H. reflexivity. Qed.

Lemma filling_stop toComp stdevAbsdiff cfg fuel (s : State) :
  full s = true -> filling toComp stdevAbsdiff cfg fuel s = Ok s.
Proof. intros Hf. destruct fuel; simpl; rewrite Hf; reflexivity. Qed.

Section ScenarioA.

Variable toComp : Mat -> Mat.
Variable stdevAbsdiff : Mat -> Mat -> float.
Variables st rl : float.
Variables size bound : Z.
Variables A B C : Mat.

Let cfgA := mkConfig size bound 2.
Let strictT := mkThreshold st st rl.
Let relaxedT := mkThreshold rl st rl.
Let recA (c : Z) := mkFrame A (toComp A) c 0%float 0.
Let recB := mkFrame B (toComp B) 1 (stdevAbsdiff (toComp A) (toComp B)) 2.
Let recC (c : Z) := mkFrame C (toComp C) c (stdevAbsdiff (toComp B) (toComp C)) 3.

(** The states the run goes through, one per frame read. *)
Let read1 :=
  mkState [A; B; C; C] [] strictT 0 0 false 0 [recA 1]
    A (toComp A) 0%float false 0.
Let read2 :=
  mkState [B; C; C] [] relaxedT 0 1 false 0 [recA 2]
    A (toComp A) (stdevAbsdiff (toComp A) (toComp A)) false 0.
Let read3 :=
  mkState [C; C] [] strictT 0 2 false 0 [recA 2; recB]
    B (toComp B) (stdevAbsdiff (toComp A) (toComp B)) false 0.
Let read4 :=
  mkState [C] [] strictT 0 3 false 0 [recA 2; recB; recC 1]
    C (toComp C) (stdevAbsdiff (toComp B) (toComp C)) false 0.
Let read5 :=
  mkState [] [] relaxedT 0 4 false 0 [recA 2; recB; recC 2]
    C (toComp C) (stdevAbsdiff (toComp C) (toComp C)) false 0.
Let read6 :=
  mkState [] [] relaxedT 0 5 true 0 [recA 2; recB; recC 2]
    [] (toComp C) (stdevAbsdiff (toComp C) (toComp C)) true 0.
Let checked :=
  mkState [] [] relaxedT 0 5 true 0 [recA 2; recB; recC 2]
    [] (toComp C) (stdevAbsdiff (toComp C) (toComp C)) true size.

Hypothesis HA : Mat_empty A = false.
Hypothesis HB : Mat_empty B = false.
Hypothesis HC : Mat_empty C = false.
Hypothesis HAA : (stdevAbsdiff (toComp A) (toComp A) <? st)%float = true.
Hypothesis HAB : (stdevAbsdiff (toComp A) (toComp B) <? rl)%float = false.
Hypothesis HBC : (stdevAbsdiff (toComp B) (toComp C) <? st)%float = false.
Hypothesis HCC : (stdevAbsdiff (toComp C) (toComp C) <? st)%float = true.
Hypothesis Hbound : 0 < bound.
Hypothesis Hsize : 6 <= size.

Lemma scenarioA_read2 : fill_step toComp stdevAbsdiff cfgA read1 = Ok read2.
Proof using HA HAA.
  unfold fill_step, readFrame. cbn. rewrite HA. cbn. rewrite HAA. reflexivity.
Qed.

Lemma scenarioA_read3 : fill_step toComp stdevAbsdiff cfgA read2 = Ok read3.
Proof using HB HAB Hsize.
  unfold fill_step, readFrame. cbn. rewrite HB. cbn. rewrite HAB.
  change (Z.of_nat 1) with 1.
  replace (1 <? size) with true by (symmetry; apply Z.ltb_lt; lia). reflexivity.
Qed.

Lemma scenarioA_read4 : fill_step toComp stdevAbsdiff cfgA read3 = Ok read4.
Proof using HC HBC Hsize.
  unfold fill_step, readFrame. cbn. rewrite HC. cbn. rewrite HBC.
  change (Z.of_nat 2) with 2.
  replace (2 <? size) with true by (symmetry; apply Z.ltb_lt; lia). reflexivity.
Qed.

Lemma scenarioA_read5 : fill_step toComp stdevAbsdiff cfgA read4 = Ok read5.
Proof using HC HCC.
  unfold fill_step, readFrame. cbn. rewrite HC. cbn. rewrite HCC. reflexivity.
Qed.

Lemma scenarioA_read6 : fill_step toComp stdevAbsdiff cfgA read5 = Ok read6.
Proof using Type. reflexivity. Qed.

Lemma scenarioA_filling : filling toComp stdevAbsdiff cfgA 5 read1 = Ok read6.
Proof using HA HB HC HAA HAB HBC HCC Hsize.
  rewrite (filling_step toComp stdevAbsdiff cfgA 4 read1 read2 eq_refl scenarioA_read2).
  rewrite (filling_step toComp stdevAbsdiff cfgA 3 read2 read3 eq_refl scenarioA_read3).
  rewrite (filling_step toComp stdevAbsdiff cfgA 2 read3 read4 eq_refl scenarioA_read4).
  rewrite (filling_step toComp stdevAbsdiff cfgA 1 read4 read5 eq_refl scenarioA_read5).
  rewrite (filling_step toComp stdevAbsdiff cfgA 0 read5 read6 eq_refl scenarioA_read6).
  apply filling_stop. reflexivity.
Qed.

Lemma scenarioA_correcting :
  drift_check cfgA read6 = Ok checked /\ correcting cfgA checked = Undefined.
Proof using Hbound Hsize.
  split; [reflexivity|].
  unfold correcting. cbn [DRIFT checked adjustment_bound cfgA buffer buffer_size].
  replace (Z.abs 0 <? bound) with true by (symmetry; apply Z.ltb_lt; simpl; lia).
  replace (_ !! _) with (@None Frame); [reflexivity|].
  symmetry. apply lookup_ge_None. cbn [length].
  pose proof (Z.quot_le_lower_bound size 2 3 ltac:(lia) ltac:(lia)). lia.
Qed.

Lemma scenarioA_undefined :
  main toComp stdevAbsdiff cfgA strictT [A; A; B; C; C] = Undefined.
Proof using HA HB HC HAA HAB HBC HCC Hbound Hsize.
  assert (Hread : readFrame toComp (boot strictT [A; A; B; C; C])
                  = (true, mkState [A; B; C; C] [] strictT 0 0 false 0 []
                             A (toComp A) 0%float false 0)).
  { unfold readFrame. cbn. rewrite HA. reflexivity. }
  unfold main, main_state. rewrite Hread.
  change (first_frame _) with read1.
  change (S (length (CAP _))) with 5%nat.
  assert (Hloop : main_loop toComp stdevAbsdiff cfgA 5 read1 = Undefined).
  { change (main_loop toComp stdevAbsdiff cfgA 5 read1)
      with (cycle toComp stdevAbsdiff cfgA read1
              ≫= main_loop toComp stdevAbsdiff cfgA 4).
    unfold cycle. change (S (length (CAP read1))) with 5%nat.
    rewrite scenarioA_filling. destruct scenarioA_correcting as [E2 E3].
    cbn [mbind result_bind]. rewrite E2. cbn [mbind result_bind]. rewrite E3.
    reflexivity. }
  rewrite Hloop. reflexivity.
Qed.

End ScenarioA.

(** C7 fails on the program.  Whatever the image operations, on frames A, A,
    B, C, C that fall in match groups of 2, 1 and 2, with [duplicate_count] 2
    and a [buffer_size] of 6 or more (7 is the default), the stream ends with
    three records in the buffer, the drift is 0, and the correction steps to
    position [buffer_size / 2] of the buffer, at or past its end. *)
Theorem C7_scenarioA_out_of_bounds toComp stdevAbsdiff (t : Threshold)
    (size bound : Z) (A B C : Mat) :
  Mat_empty A = false -> Mat_empty B = false -> Mat_empty C = false ->
  value t = strict t ->
  (stdevAbsdiff (toComp A) (toComp A) <? strict t)%float = true ->
  (stdevAbsdiff (toComp A) (toComp B) <? relaxed t)%float = false ->
  (stdevAbsdiff (toComp B) (toComp C) <? strict t)%float = false ->
  (stdevAbsdiff (toComp C) (toComp C) <? strict t)%float = true ->
  0 < bound -> 6 <= size ->
  main toComp stdevAbsdiff (mkConfig size bound 2) t [A; A; B; C; C] = Undefined.
Proof.
  intros HA HB HC Ht HAA HAB HBC HCC Hbound Hsize.
  destruct t as [v st rl]. simpl in Ht, HAA, HAB, HBC, HCC. subst v.
  apply scenarioA_undefined; assumption.
Qed.

(** ** The theorems at concrete states *)

Lemma C1_slot_reallocator_witness :
  exists l',
    correcting (mkConfig 3 5 2) scenarioB = Ok (set_buffer l' scenarioB) /\
    map count l' = [2; 2; 1].
Proof.
  destruct (C1_slot_reallocator (mkConfig 3 5 2) scenarioB
              (mkFrame [10; 200] [10; 200] 1 82.5%float 2)
              eq_refl eq_refl eq_refl) as (l' & H & _).
  exists l'. split; [exact H|].
  vm_compute in H. injection H as <-. reflexivity.
Defined.

Lemma C2_window_invariant_witness :
  Z.of_nat (length (buffer scenarioD)) <= 7 /\
  Forall (fun f => 1 <= count f) (buffer scenarioD).
Proof.
  apply (C2_window_invariant sample_toComp sample_stdev default_Config
           default_THRESH srcD scenarioD).
  - simpl. lia.
  - simpl. lia.
  - exact scenarioD_reachable.
Defined.

Lemma C3_drift_cut_witness :
  exists l' d',
    correcting default_Config scenarioC = Ok (set_DRIFT d' (set_buffer l' scenarioC)) /\
    map count l' = [2; 2; 2; 2] /\ d' = 4.
Proof.
  destruct (C3_drift_cut default_Config scenarioC ltac:(simpl; lia))
    as (l' & d' & H & Hs & _).
  exists l', d'. split; [exact H|].
  vm_compute in Hs. injection Hs as <- <-. split; reflexivity.
Defined.

Lemma C4_cancel_exits_witness :
  status (signal_handler scenarioD).2 = 1 /\
  output (signal_handler scenarioD).2 = VIDEO scenarioD.
Proof.
  destruct (C4_cancel_exits sample_toComp sample_stdev default_Config
              default_THRESH srcD scenarioD scenarioD_reachable) as (H1 & H2 & _).
  split; [exact H1|exact H2].
Defined.

Lemma C5_drift_bound_witness :
  correcting default_Config scenarioC
    = Ok (set_DRIFT 4 (set_buffer (spec_cut 2 5 (buffer scenarioC) 7).1 scenarioC)) /\
  Z.abs 4 < 5.
Proof.
  assert (H : correcting default_Config scenarioC
    = Ok (set_DRIFT 4 (set_buffer (spec_cut 2 5 (buffer scenarioC) 7).1 scenarioC)))
    by (vm_compute; reflexivity).
  split; [exact H|].
  destruct (C5_drift_bound default_Config scenarioC _ ltac:(simpl; lia) H)
    as [Hin|[(_ & Hout & _)|(_ & Hout & _)]].
  - exact Hin.
  - simpl in Hout. lia.
  - simpl in Hout. lia.
Defined.

Lemma C6_hysteresis_witness :
  hysteresis default_Config default_THRESH scenarioD.
Proof.
  destruct (C6_hysteresis sample_toComp sample_stdev default_Config default_THRESH
              srcD scenarioD ltac:(simpl; lia) eq_refl scenarioD_reachable eq_refl)
    as (H & _).
  apply H. reflexivity.
Defined.

Lemma C10_end_of_stream_out_of_bounds_witness :
  cycle sample_toComp sample_stdev default_Config
    (started sample_toComp default_THRESH [frameA; frameA]) = Undefined /\
  main sample_toComp sample_stdev default_Config default_THRESH [frameA; frameA]
    = Undefined.
Proof.
  destruct (C10_end_of_stream_out_of_bounds sample_toComp sample_stdev
              default_Config default_THRESH [frameA; frameA]
              ltac:(vm_compute; reflexivity) ltac:(discriminate)
              ltac:(repeat constructor) ltac:(vm_compute; discriminate))
    as (s1 & _ & _ & _ & Hc & _ & Hm).
  split; [exact Hc|exact Hm].
Defined.

Lemma C9_middle_out_of_bounds_witness :
  main sample_toComp sample_stdev default_Config default_THRESH [frameA; frameA]
    = Undefined.
Proof.
  destruct (C9_middle_out_of_bounds sample_toComp sample_stdev default_Config
              default_THRESH [frameA; frameA]
              ltac:(vm_compute; reflexivity) ltac:(discriminate)
              ltac:(repeat constructor) ltac:(vm_compute; discriminate))
    as (s1 & s2 & _ & _ & _ & _ & _ & _ & _ & H).
  exact H.
Defined.

Lemma C7_scenarioA_out_of_bounds_witness :
  main sample_toComp sample_stdev default_Config default_THRESH
       [frameA; frameA; frameB; frameC; frameC]
    = Undefined.
Proof.
  apply (C7_scenarioA_out_of_bounds sample_toComp sample_stdev default_THRESH
           7 5 frameA frameB frameC);
    try (vm_compute; reflexivity).
  lia.
Defined.

Lemma adjustment_conserves_total_witness :
  exists s', correcting (mkConfig 3 5 2) scenarioB = Ok s' /\
    total (buffer s') = 5.
Proof.
  destruct (correcting (mkConfig 3 5 2) scenarioB) as [s'| |] eqn:E;
    [|vm_compute in E; discriminate E..].
  exists s'. split; [reflexivity|].
  destruct (adjustment_conserves_total (mkConfig 3 5 2) scenarioB s'
              ltac:(vm_compute; reflexivity) E) as (H & _).
  rewrite H. reflexivity.
Defined.

(** * More of the program *)

(** ** What a correction does to the buffer *)

Lemma add_one_units fuel dup bound c drift :
  0 < bound -> drift <= - bound -> (Z.to_nat (dup - c) <= fuel)%nat ->
  add_one fuel dup bound c drift =
    (c + Z.min (Z.max 0 (dup - c)) (- bound + 1 - drift),
     drift + Z.min (Z.max 0 (dup - c)) (- bound + 1 - drift)).
Proof.
  intros Hb. revert c drift. induction fuel as [|k IH]; intros c drift Hd Hf; simpl.
  - f_equal; lia.
  - destruct (c <? dup) eqn:E1; [apply Z.ltb_lt in E1|apply Z.ltb_ge in E1; f_equal; lia].
    destruct (Z.abs (drift + 1) <? bound) eqn:E2; [apply Z.ltb_lt in E2; f_equal; lia|].
    apply Z.ltb_ge in E2. rewrite IH by lia. f_equal; lia.
Qed.

Lemma spec_add_idle dup bound (l : list Frame) drift :
  - bound < drift -> spec_add dup bound l drift = (l, drift).
Proof.
  intros Hlt. induction l as [|f r IH]; simpl; [reflexivity|].
  replace (Z.min (Z.max 0 (dup - count f)) (Z.max 0 (- bound + 1 - drift))) with 0 by lia.
  rewrite !Z.add_0_r, IH, set_count_same by lia. reflexivity.
Qed.

Lemma add_frames_spec dup bound (l : list Frame) drift :
  0 < bound -> drift <= - bound ->
  add_frames dup bound l drift = spec_add dup bound l drift.
Proof.
  intros Hb. revert drift. induction l as [|f r IH]; intros drift Hd; [reflexivity|].
  cbn [add_frames spec_add].
  destruct (bound <=? Z.abs drift) eqn:E; [|apply Z.leb_gt in E; lia].
  rewrite add_one_units by lia.
  replace (Z.max 0 (- bound + 1 - drift)) with (- bound + 1 - drift) by lia.
  set (units := Z.min (Z.max 0 (dup - count f)) (- bound + 1 - drift)).
  destruct (Z_le_gt_dec (drift + units) (- bound)) as [Hle|Hgt].
  - rewrite IH by exact Hle. reflexivity.
  - rewrite add_frames_idle by lia. rewrite spec_add_idle by lia. reflexivity.
Qed.

Lemma spec_add_props dup bound (l : list Frame) drift l' d' :
  0 < bound -> drift <= - bound -> spec_add dup bound l drift = (l', d') ->
  d' = drift + (total l' - total l) /\
  d' <= - bound + 1 /\
  (d' = - bound + 1 \/ Forall (fun f => dup <= count f) l') /\
  Forall2 (fun f f' => f' = set_count (count f') f /\ count f <= count f' /\
                       count f' <= Z.max dup (count f)) l l'.
Proof.
  intros Hb. unfold total. revert drift l' d'.
  induction l as [|f r IH]; intros drift l' d' Hd H.
  - injection H as <- <-. simpl. repeat split; try lia; auto.
  - cbn [spec_add] in H.
    set (units := Z.min (Z.max 0 (dup - count f)) (Z.max 0 (- bound + 1 - drift))) in *.
    destruct (spec_add dup bound r (drift + units)) as [r' dr] eqn:Er.
    injection H as <- <-.
    destruct (Z_le_gt_dec (drift + units) (- bound)) as [Hle|Hgt].
    + destruct (IH _ _ _ Hle Er) as (H1 & H2 & H3 & H4).
      simpl. repeat split; try lia.
      * destruct H3 as [H3|H3]; [left; exact H3|right].
        constructor; [simpl; lia|exact H3].
      * constructor; [simpl; repeat split; lia|exact H4].
    + rewrite spec_add_idle in Er by lia. injection Er as <- <-.
      simpl. repeat split; try lia.
      constructor; [simpl; repeat split; lia|].
      clear. induction r; constructor; auto.
      repeat split; try lia. symmetry. apply set_count_same. reflexivity.
Qed.

(** X3.  With the drift at or below minus a positive [adjustment_bound], the
    correction raises, head to tail, every record below [duplicate_count] one
    unit at a time, the drift with it, and stops the moment the drift is
    within the bound, at one above minus the bound, or at the end of the
    buffer.  No count falls, none is raised above [duplicate_count], and the
    drift rises by exactly the number of frames put in. *)
Theorem drift_add (cfg : Config) (s : State) :
  let dup := duplicate_count cfg in
  let bound := adjustment_bound cfg in
  0 < bound ->
  DRIFT s <= - bound ->
  exists l' d',
    correcting cfg s = Ok (set_DRIFT d' (set_buffer l' s)) /\
    spec_add dup bound (buffer s) (DRIFT s) = (l', d') /\
    Forall2 (fun f f' => f' = set_count (count f') f /\ count f <= count f' /\
                         count f' <= Z.max dup (count f)) (buffer s) l' /\
    d' = DRIFT s + (total l' - total (buffer s)) /\
    d' <= - bound + 1 /\
    (d' = - bound + 1 \/ Forall (fun f => dup <= count f) l').
Proof.
  intros dup bound Hb Hd.
  destruct (spec_add dup bound (buffer s) (DRIFT s)) as [l' d'] eqn:E.
  exists l', d'.
  destruct (spec_add_props _ _ _ _ _ _ Hb Hd E) as (H1 & H2 & H3 & H4).
  split.
  - unfold correcting. fold dup bound.
    destruct (Z.abs (DRIFT s) <? bound) eqn:E1; [apply Z.ltb_lt in E1; lia|].
    destruct (bound <=? DRIFT s) eqn:E2; [apply Z.leb_le in E2; lia|].
    rewrite add_frames_spec, E by assumption. reflexivity.
  - repeat (split; [assumption || reflexivity|]). exact H3.
Qed.

Lemma add_one_balance fuel dup bound c drift :
  (add_one fuel dup bound c drift).1 - c = (add_one fuel dup bound c drift).2 - drift.
Proof.
  revert c drift. induction fuel as [|k IH]; intros c drift; simpl; [lia|].
  destruct (c <? dup); [|simpl; lia].
  destruct (Z.abs (drift + 1) <? bound); [simpl; lia|].
  specialize (IH (c + 1) (drift + 1)). lia.
Qed.

Lemma add_frames_balance dup bound (l : list Frame) drift :
  total (add_frames dup bound l drift).1 - (add_frames dup bound l drift).2
  = total l - drift.
Proof.
  revert drift. induction l as [|f r IH]; intros drift; cbn [add_frames]; [reflexivity|].
  destruct (bound <=? Z.abs drift); [|reflexivity].
  pose proof (add_one_balance (Z.to_nat (dup - count f)) dup bound (count f) drift) as H1.
  destruct (add_one _ _ _ _ _) as [c d]. specialize (IH d).
  destruct (add_frames dup bound r d) as [r' dr]. simpl in *.
  rewrite !total_cons. simpl. lia.
Qed.

(** X4.  Whatever branch a correction takes, the drift moves with the buffer:
    the frames the buffer stands for, less the drift, are as many after the
    correction as before.  The adjustment changes neither; the cut lowers both
    and the raise lifts both by the same number. *)
Theorem correcting_balance (cfg : Config) (s s' : State) :
  correcting cfg s = Ok s' ->
  total (buffer s') - DRIFT s' = total (buffer s) - DRIFT s.
Proof.
  intros H. unfold correcting in H.
  destruct (Z.abs (DRIFT s) <? adjustment_bound cfg).
  - destruct (buffer s !! _) as [tofix|] eqn:Hi; [|discriminate].
    injection H as <-. cbn [buffer set_buffer DRIFT].
    unfold fix_frame. rewrite Hi, total_fix_loop. reflexivity.
  - destruct (adjustment_bound cfg <=? DRIFT s) eqn:E2.
    + apply Z.leb_le in E2. rewrite cut_frames_spec in H.
      destruct (spec_cut _ _ _ _) as [l d] eqn:E. injection H as <-.
      destruct (spec_cut_props _ _ _ _ _ _ E2 E) as (_ & Hd & _).
      cbn [buffer set_buffer set_DRIFT DRIFT]. lia.
    + pose proof (add_frames_balance (duplicate_count cfg) (adjustment_bound cfg)
                    (buffer s) (DRIFT s)) as Hb.
      destruct (add_frames _ _ _ _) as [l d]. injection H as <-.
      cbn [buffer set_buffer set_DRIFT DRIFT]. simpl in Hb. exact Hb.
Qed.

Lemma uncounted_alter g (l : list Frame) i :
  (forall x, uncounted (g x) = uncounted x) ->
  map uncounted (alter g i l) = map uncounted l.
Proof.
  intros Hg. revert i. induction l as [|a r IH]; intros [|i]; simpl; try reflexivity.
  - rewrite Hg. reflexivity.
  - f_equal. apply IH.
Qed.

Lemma uncounted_transfer j i (l : list Frame) :
  map uncounted (transfer j i l) = map uncounted l.
Proof.
  unfold transfer. rewrite !uncounted_alter; reflexivity.
Qed.

Lemma uncounted_fix_loop fuel dup i (l : list Frame) :
  map uncounted (fix_loop fuel dup i l) = map uncounted l.
Proof.
  revert l. induction fuel as [|k IH]; intros l; simpl; [reflexivity|].
  destruct (l !! i); [|reflexivity].
  destruct (_ <? _); [|reflexivity].
  destruct (safe_donor dup l); [rewrite IH; apply uncounted_transfer|].
  destruct (priority_donor _ l); [rewrite IH; apply uncounted_transfer|reflexivity].
Qed.

Lemma uncounted_cut_frames dup bound (l : list Frame) drift :
  map uncounted (cut_frames dup bound l drift).1 = map uncounted l.
Proof.
  revert drift. induction l as [|f r IH]; intros drift; cbn [cut_frames]; [reflexivity|].
  destruct (bound <=? drift); [|reflexivity].
  destruct (cut_one _ _ _ _ _) as [c d]. specialize (IH d).
  destruct (cut_frames dup bound r d) as [r' dr]. simpl in *. rewrite IH. reflexivity.
Qed.

Lemma uncounted_add_frames dup bound (l : list Frame) drift :
  map uncounted (add_frames dup bound l drift).1 = map uncounted l.
Proof.
  revert drift. induction l as [|f r IH]; intros drift; cbn [add_frames]; [reflexivity|].
  destruct (bound <=? Z.abs drift); [|reflexivity].
  destruct (add_one _ _ _ _ _) as [c d]. specialize (IH d).
  destruct (add_frames dup bound r d) as [r' dr]. simpl in *. rewrite IH. reflexivity.
Qed.

Lemma correcting_uncounted (cfg : Config) (s s' : State) :
  correcting cfg s = Ok s' -> map uncounted (buffer s') = map uncounted (buffer s).
Proof.
  intros H. unfold correcting in H.
  destruct (Z.abs (DRIFT s) <? adjustment_bound cfg).
  - destruct (buffer s !! _) as [tofix|] eqn:Hi; [|discriminate].
    injection H as <-. cbn [buffer set_buffer].
    unfold fix_frame. rewrite Hi. apply uncounted_fix_loop.
  - destruct (adjustment_bound cfg <=? DRIFT s).
    + pose proof (uncounted_cut_frames (duplicate_count cfg) (adjustment_bound cfg)
                    (buffer s) (DRIFT s)) as Hu.
      destruct (cut_frames _ _ _ _) as [l d]. injection H as <-. exact Hu.
    + pose proof (uncounted_add_frames (duplicate_count cfg) (adjustment_bound cfg)
                    (buffer s) (DRIFT s)) as Hu.
      destruct (add_frames _ _ _ _) as [l d]. injection H as <-. exact Hu.
Qed.

(** X5.  A correction touches nothing but counts and the drift: the buffer
    keeps its records in their order, each with its image, its comparison
    image, its priority and its index, and the input, the output, the
    threshold, the two indices and the flags are as they were. *)
Theorem correcting_only_counts (cfg : Config) (s s' : State) :
  correcting cfg s = Ok s' ->
  Forall2 (fun f f' => data f' = data f /\ comp f' = comp f /\
                       priority f' = priority f /\ index f' = index f)
    (buffer s) (buffer s') /\
  CAP s' = CAP s /\ VIDEO s' = VIDEO s /\ THRESH s' = THRESH s /\
  WRITE_INDEX s' = WRITE_INDEX s /\ READ_INDEX s' = READ_INDEX s /\
  FINISHED s' = FINISHED s /\ full s' = full s /\
  tempframe s' = tempframe s /\ compframe s' = compframe s /\
  stdev s' = stdev s /\ drift_update s' = drift_update s.
Proof.
  intros H. split.
  - apply correcting_uncounted in H.
    revert H. generalize (buffer s') as l'. generalize (buffer s) as l.
    induction l as [|f r IH]; intros [|f' r'] H; try discriminate; constructor.
    + pose proof (f_equal (fun l => default f (head l)) H) as Hf.
      split; [exact (f_equal data Hf)|]. split; [exact (f_equal comp Hf)|].
      split; [exact (f_equal priority Hf)|exact (f_equal index Hf)].
    + apply IH. exact (f_equal tail H).
  - unfold correcting in H.
    destruct (_ <? _).
    + destruct (buffer s !! _); [|discriminate]. injection H as <-. repeat split.
    + destruct (_ <=? _).
      * destruct (cut_frames _ _ _ _) as [l d]. injection H as <-. repeat split.
      * destruct (add_frames _ _ _ _) as [l d]. injection H as <-. repeat split.
Qed.

(** ** The rounds of the filling loop, case by case *)

Section Rounds.

Variable toComp : Mat -> Mat.
Variable stdevAbsdiff : Mat -> Mat -> float.
Variable cfg : Config.

(** A round reads one frame.  On a failed read it ends the filling and the
    run; on a match it counts the frame on the open record; otherwise it
    enters the frame as a new record, or, the buffer holding [buffer_size]
    records or more, ends the filling with the frame still to enter. *)
Lemma fill_step_cases (s s' : State) :
  fill_step toComp stdevAbsdiff cfg s = Ok s' ->
  CAP s' = tail (CAP s) /\ READ_INDEX s' = READ_INDEX s + 1 /\
  tempframe s' = hd [] (CAP s) /\
  VIDEO s' = VIDEO s /\ WRITE_INDEX s' = WRITE_INDEX s /\
  strict (THRESH s') = strict (THRESH s) /\
  relaxed (THRESH s') = relaxed (THRESH s) /\
  (value (THRESH s') = value (THRESH s) \/
   value (THRESH s') = strict (THRESH s) \/
   value (THRESH s') = relaxed (THRESH s)) /\
  ((Mat_empty (hd [] (CAP s)) = true /\ FINISHED s' = true /\ full s' = true /\
    buffer s' = buffer s) \/
   (Mat_empty (hd [] (CAP s)) = false /\ FINISHED s' = FINISHED s /\
    ((full s' = full s /\
      buffer s' = on_back (fun f => set_count (count f + 1) f) (buffer s)) \/
     (full s' = full s /\ Z.of_nat (length (buffer s)) < buffer_size cfg /\
      exists p, buffer s' =
        buffer s ++ [mkFrame (hd [] (CAP s)) (toComp (hd [] (CAP s))) 1 p
                       (READ_INDEX s + 1)]) \/
     (full s' = true /\ buffer_size cfg <= Z.of_nat (length (buffer s)) /\
      buffer s' = buffer s)))).
Proof.
  intros H. unfold fill_step, readFrame in H. cbn in H.
  destruct (Mat_empty (hd [] (CAP s))) eqn:Em.
  { injection H as <-. cbn. repeat (split; [reflexivity || (left; reflexivity)|]).
    left. repeat split. }
  cbn in H. destruct (last (buffer s)) as [back|]; [|discriminate].
  destruct (_ <? _)%float.
  - destruct (_ =? _); injection H as <-; cbn;
      repeat (split; [reflexivity|]);
      (split; [auto|]); right; (split; [reflexivity|]); (split; [reflexivity|]);
      left; split; reflexivity.
  - destruct (Z.of_nat (length (buffer s)) <? buffer_size cfg) eqn:E;
      injection H as <-; cbn; repeat (split; [reflexivity|]);
      (split; [auto|]); right; (split; [reflexivity|]); (split; [reflexivity|]);
      right.
    + left. split; [reflexivity|]. split; [apply Z.ltb_lt, E|]. eexists. reflexivity.
    + right. split; [reflexivity|]. split; [apply Z.ltb_ge, E|reflexivity].
Qed.

Variable t : Threshold.
Variable src : list Mat.

Lemma reachable_full (s : State) :
  1 <= buffer_size cfg ->
  reachable toComp stdevAbsdiff cfg t src s ->
  Z.of_nat (length (buffer s)) <= buffer_size cfg /\
  (full s = true -> FINISHED s = false ->
   Z.of_nat (length (buffer s)) = buffer_size cfg).
Proof.
  intros Hsize.
  induction 1 as [s1 H|s s' _ IH Hf H|s s' _ IH Hf H|s j tofix _ IH Hf _ _ _
                 |s s' _ IH Hf H|s s' _ IH Hf H].
  - unfold readFrame in H. destruct (Mat_empty _); [discriminate|].
    injection H as <-. cbn. split; [lia|discriminate].
  - destruct IH as [IH1 IH2].
    destruct (fill_step_cases _ _ H) as (_ & _ & _ & _ & _ & _ & _ & _ & Hcase).
    destruct Hcase as [(_ & Hfin & _ & ->)|(_ & _ & [(Hfu & ->)|[(Hfu & Hlt & p & ->)|(_ & Hge & ->)]])].
    + split; [exact IH1|]. intros _ Hc. congruence.
    + rewrite length_on_back. split; [exact IH1|]. intros Hc. congruence.
    + rewrite length_app. simpl. split; [lia|]. intros Hc. congruence.
    + split; [exact IH1|]. intros _ _. lia.
  - destruct (drift_check_same _ _ _ H) as [(_ & _ & _ & _ & _ & -> & _ & _ & _ & ->) ->].
    exact IH.
  - cbn. rewrite length_transfer. exact IH.
  - destruct (correcting_same _ _ _ H) as [(_ & _ & _ & _ & _ & -> & _ & _ & _ & ->) ->].
    exact IH.
  - destruct IH as [IH1 _]. apply evict_eq in H as (front & rest & E & ->). cbn.
    rewrite E in IH1. rewrite length_app. simpl in *. split; [lia|discriminate].
Qed.

(** X6.  While the stream lasts, a correction finds the buffer full: in every
    state of a run in which the filling has ended and the stream has not, the
    buffer holds exactly [buffer_size] records, the position [buffer_size / 2]
    is inside it, and the correction is defined.  Stepping past the end of the
    buffer can only happen in the round in which the stream ended. *)
Theorem correcting_defined_while_stream_lasts (s : State) :
  1 <= buffer_size cfg ->
  reachable toComp stdevAbsdiff cfg t src s ->
  full s = true -> FINISHED s = false ->
  Z.of_nat (length (buffer s)) = buffer_size cfg /\
  (exists tofix, buffer s !! Z.to_nat (Z.quot (buffer_size cfg) 2) = Some tofix) /\
  exists s', correcting cfg s = Ok s'.
Proof.
  intros Hsize Hr Hfull Hfin.
  destruct (reachable_full s Hsize Hr) as [_ Hlen]. specialize (Hlen Hfull Hfin).
  assert (Hin : (Z.to_nat (Z.quot (buffer_size cfg) 2) < length (buffer s))%nat).
  { pose proof (Z.quot_lt (buffer_size cfg) 2 ltac:(lia) ltac:(lia)).
    pose proof (Z.quot_pos (buffer_size cfg) 2 ltac:(lia) ltac:(lia)). lia. }
  apply lookup_lt_is_Some_2 in Hin. destruct Hin as [tofix Hi].
  split; [exact Hlen|]. split; [exists tofix; exact Hi|].
  unfold correcting. destruct (_ <? _).
  - rewrite Hi. eexists. reflexivity.
  - destruct (_ <=? _).
    + destruct (cut_frames _ _ _ _). eexists. reflexivity.
    + destruct (add_frames _ _ _ _). eexists. reflexivity.
Qed.

(** X7.  A run never changes the two settings of the threshold, and the
    threshold in force is always one of them, when it was at the start. *)
Theorem threshold_settings_kept (s : State) :
  reachable toComp stdevAbsdiff cfg t src s ->
  strict (THRESH s) = strict t /\ relaxed (THRESH s) = relaxed t /\
  (value t = strict t \/ value t = relaxed t ->
   value (THRESH s) = strict t \/ value (THRESH s) = relaxed t).
Proof.
  induction 1 as [s1 H|s s' _ IH Hf H|s s' _ IH Hf H|s j tofix _ IH Hf _ _ _
                 |s s' _ IH Hf H|s s' _ IH Hf H].
  - unfold readFrame in H. destruct (Mat_empty _); [discriminate|].
    injection H as <-. cbn. auto.
  - destruct IH as (IH1 & IH2 & IH3).
    destruct (fill_step_cases _ _ H) as (_ & _ & _ & _ & _ & -> & -> & Hv & _).
    split; [exact IH1|]. split; [exact IH2|]. intros Ht. specialize (IH3 Ht).
    rewrite <- IH1, <- IH2 in *.
    destruct Hv as [ -> | [ -> | -> ] ]; auto.
  - destruct (drift_check_same _ _ _ H) as [(_ & _ & -> & _) _]. exact IH.
  - exact IH.
  - destruct (correcting_same _ _ _ H) as [(_ & _ & -> & _) _]. exact IH.
  - apply evict_eq in H as (front & rest & _ & ->). exact IH.
Qed.

End Rounds.

(** ** The order of the frames *)

Lemma tail_drop {A} (l : list A) n : tail (drop n l) = drop (S n) l.
Proof.
  revert n. induction l as [|a r IH]; intros n.
  - destruct n; reflexivity.
  - destruct n; [reflexivity|]. simpl. apply IH.
Qed.

Lemma hd_drop (src : list Mat) n : hd [] (drop n src) = nth n src [].
Proof.
  revert n. induction src as [|a r IH]; intros n.
  - destruct n; reflexivity.
  - destruct n; [reflexivity|]. simpl. apply IH.
Qed.

Lemma render_snoc (src : list Mat) sched p :
  render src (sched ++ [p])
  = render src sched ++ replicate (Z.to_nat p.2) (frame_at src p.1).
Proof.
  unfold render. rewrite map_app, concat_app. simpl. rewrite app_nil_r. reflexivity.
Qed.

Lemma render_app (src : list Mat) sched1 sched2 :
  render src (sched1 ++ sched2) = render src sched1 ++ render src sched2.
Proof. unfold render. rewrite map_app, concat_app. reflexivity. Qed.

Lemma StronglySorted_snoc (l : list Z) y :
  StronglySorted Z.lt l -> Forall (fun i => i < y) l ->
  StronglySorted Z.lt (l ++ [y]).
Proof.
  intros Hs Hl. apply StronglySorted_app_2.
  - intros x1 x2 H1 H2. apply list_elem_of_singleton in H2. subst x2.
    rewrite Forall_forall in Hl. apply Hl. exact H1.
  - exact Hs.
  - repeat constructor.
Qed.

Lemma index_on_back g (l : list Frame) :
  (forall x, index (g x) = index x) -> map index (on_back g l) = map index l.
Proof.
  intros Hg. induction l as [|x [|y r] IH]; simpl in *; [reflexivity| |].
  - rewrite Hg. reflexivity.
  - f_equal. exact IH.
Qed.

Lemma uncounted_same (src : list Mat) (l l' : list Frame) :
  map uncounted l' = map uncounted l ->
  map index l' = map index l /\
  (Forall (at_index src) l -> Forall (at_index src) l').
Proof.
  revert l'. induction l as [|f r IH]; intros [|f' r'] H; try discriminate.
  - split; [reflexivity|auto].
  - pose proof (f_equal (fun l => default f (head l)) H) as Hf.
    destruct (IH r' (f_equal tail H)) as [Hi Ha].
    pose proof (f_equal index Hf) as Hidx. pose proof (f_equal data Hf) as Hdat.
    simpl in Hidx, Hdat. split.
    + simpl. rewrite Hidx, Hi. reflexivity.
    + intros Hall. inversion Hall as [|? ? [H0 Hd] Hr]; subst.
      constructor; [|apply Ha; exact Hr].
      unfold at_index. rewrite Hidx, Hdat. split; assumption.
Qed.

Lemma in_order_buffer (src : list Mat) (s s' : State) :
  same_io s s' ->
  map uncounted (buffer s') = map uncounted (buffer s) ->
  in_order src s -> in_order src s'.
Proof.
  intros (Hc & Hv & _ & _ & Hr & _ & Ht & _ & _ & Hf) Hu
         (H0 & Hcap & Htemp & Hat & sched & Hvid & Hpos & Hsort & Hle).
  destruct (uncounted_same src _ _ Hu) as [Hi Ha].
  unfold in_order. rewrite Hr, Hc, Ht, Hv, Hi, Hf.
  split; [exact H0|]. split; [exact Hcap|]. split; [exact Htemp|].
  split; [apply Ha, Hat|]. exists sched. auto.
Qed.

Lemma VIDEO_flush (src : list Mat) (l : list Frame) (s : State) :
  Forall (at_index src) l ->
  VIDEO (flush l s) = VIDEO s ++ render src (map entry l).
Proof.
  revert s. induction l as [|f r IH]; intros s Hall.
  - simpl. unfold render. simpl. rewrite app_nil_r. reflexivity.
  - inversion Hall as [|? ? [H0 Hd] Hr]; subst.
    cbn [flush]. rewrite IH by exact Hr.
    unfold writeFrames. rewrite writeFrames_loop_eq. cbn [VIDEO].
    change (map entry (f :: r)) with ([entry f] ++ map entry r).
    rewrite render_app, app_assoc. f_equal. f_equal.
    unfold render. simpl. rewrite app_nil_r, Hd. reflexivity.
Qed.

Section Order.

Variable toComp : Mat -> Mat.
Variable stdevAbsdiff : Mat -> Mat -> float.
Variable cfg : Config.
Variable t : Threshold.
Variable src : list Mat.

Lemma reachable_in_order (s : State) :
  reachable toComp stdevAbsdiff cfg t src s -> in_order src s.
Proof.
  induction 1 as [s1 H|s s' _ IH Hf H|s s' _ IH Hf H|s j tofix _ IH Hf _ _ _
                 |s s' _ IH Hf H|s s' _ IH Hf H].
  - unfold readFrame in H. destruct (Mat_empty _); [discriminate|].
    injection H as <-. unfold in_order. cbn.
    split; [lia|]. split; [destruct src; reflexivity|].
    assert (Hhd : hd [] src = frame_at src 0) by (destruct src; reflexivity).
    split; [exact Hhd|].
    split; [constructor; [split; [cbn; lia|exact Hhd]|constructor]|].
    exists []. split; [reflexivity|]. split; [constructor|].
    split; [repeat constructor|]. constructor; [lia|constructor].
  - destruct IH as (H0 & Hcap & Htemp & Hat & sched & Hvid & Hpos & Hsort & Hle).
    rewrite Hf in Hle.
    destruct (fill_step_cases _ _ _ _ _ H)
      as (Hc' & Hr' & Ht' & Hv' & _ & _ & _ & _ & Hcase).
    assert (Hnat : Z.to_nat (READ_INDEX s + 1 + 1) = S (Z.to_nat (READ_INDEX s + 1)))
      by lia.
    assert (Hframe : hd [] (CAP s) = frame_at src (READ_INDEX s + 1)).
    { rewrite Hcap. apply hd_drop. }
    assert (Hlt : Forall (fun i => i < READ_INDEX s + 1)
                    (map fst sched ++ map index (buffer s))).
    { eapply Forall_impl; [exact Hle|]. intros i Hi. simpl in Hi. lia. }
    unfold in_order. rewrite Hr', Hc', Ht', Hv', Hnat.
    split; [lia|]. split; [rewrite Hcap; apply tail_drop|]. split; [exact Hframe|].
    destruct Hcase as [(_ & _ & Hfu & ->)
                      |(_ & _ & [(Hfu & ->)|[(Hfu & _ & p & ->)|(Hfu & _ & ->)]])];
      rewrite Hfu; try rewrite Hf.
    + split; [exact Hat|]. exists sched. auto.
    + split; [apply Forall_on_back; [|exact Hat]; intros x Hx; exact Hx|].
      exists sched. rewrite index_on_back by reflexivity.
      split; [exact Hvid|]. split; [exact Hpos|]. split; [exact Hsort|].
      eapply Forall_impl; [exact Hlt|]. intros i Hi. simpl in Hi. lia.
    + split.
      { apply Forall_app. split; [exact Hat|]. repeat constructor; cbn; [lia|exact Hframe]. }
      exists sched. rewrite map_app, app_assoc. cbn [map index].
      split; [exact Hvid|]. split; [exact Hpos|].
      split; [apply StronglySorted_snoc; assumption|].
      apply Forall_app. split; [|repeat constructor; lia].
      eapply Forall_impl; [exact Hlt|]. intros i Hi. simpl in Hi. lia.
    + split; [exact Hat|]. exists sched. auto.
  - destruct (drift_check_same _ _ _ H) as [Hsame Hb].
    apply (in_order_buffer src s s' Hsame); [rewrite Hb; reflexivity|exact IH].
  - apply (in_order_buffer src s); [repeat split| |exact IH].
    cbn [buffer set_buffer]. apply uncounted_transfer.
  - destruct (correcting_same _ _ _ H) as [Hsame _].
    apply (in_order_buffer src s s' Hsame); [|exact IH].
    apply correcting_uncounted with (cfg := cfg). exact H.
  - destruct IH as (H0 & Hcap & Htemp & Hat & sched & Hvid & Hpos & Hsort & Hle).
    rewrite Hf in Hle.
    apply evict_eq in H as (front & rest & E & ->). rewrite E in Hat, Hsort, Hle.
    inversion Hat as [|? ? [Hf0 Hfd] Hrest]; subst.
    unfold in_order. cbn [READ_INDEX CAP tempframe buffer VIDEO full].
    split; [exact H0|]. split; [exact Hcap|]. split; [exact Htemp|].
    split.
    { apply Forall_app. split; [exact Hrest|]. repeat constructor; [exact H0|exact Htemp]. }
    exists (sched ++ [entry front]).
    split; [rewrite render_snoc, Hvid; cbn; rewrite Hfd; reflexivity|].
    split; [apply Forall_app; split; [exact Hpos|repeat constructor; exact Hf0]|].
    assert (Hkeys : map fst (sched ++ [entry front]) ++
                    map index (rest ++ [mkFrame (tempframe s) (compframe s) 1
                                          (stdev s) (READ_INDEX s)])
                    = (map fst sched ++ map index (front :: rest)) ++ [READ_INDEX s]).
    { rewrite !map_app. cbn [map entry fst index]. rewrite <- !app_assoc. reflexivity. }
    rewrite Hkeys. split; [apply StronglySorted_snoc; assumption|].
    apply Forall_app. split; [|repeat constructor; lia].
    eapply Forall_impl; [exact Hle|]. intros i Hi. simpl in Hi. lia.
Qed.

(** X8.  In every state of a run, each record of the buffer holds the frame
    of the stream at its index (its image is that frame, or the empty image
    when the index is past the end of the stream), the indices go strictly up
    from the front of the buffer to its back, none is above [READ_INDEX], and
    [tempframe] is the frame at [READ_INDEX]. *)
Theorem buffer_in_stream_order (s : State) :
  reachable toComp stdevAbsdiff cfg t src s ->
  Forall (fun f => 0 <= index f <= READ_INDEX s /\ data f = frame_at src (index f))
    (buffer s) /\
  StronglySorted Z.lt (map index (buffer s)) /\
  tempframe s = frame_at src (READ_INDEX s).
Proof.
  intros Hr. apply reachable_in_order in Hr
    as (H0 & Hcap & Htemp & Hat & sched & Hvid & Hpos & Hsort & Hle).
  split; [|split; [eapply StronglySorted_app_1_r; exact Hsort|exact Htemp]].
  apply Forall_app in Hle as [_ Hle]. rewrite Forall_fmap in Hle.
  rewrite Forall_forall in *. intros f Hf.
  destruct (Hat f Hf) as [Hi Hd]. specialize (Hle f Hf). simpl in Hle.
  split; [|exact Hd]. destruct (full s); lia.
Qed.

(** X9.  When the run of the loops and the cleanup comes to its end, the
    output is a schedule of the stream: frames of the stream, in the order of
    the stream, each a number of times in one run; a frame the output leaves
    out is left out for good, and no position of the stream comes twice.  (A
    position past the end of the stream stands for the empty image of the read
    that failed.) *)
Theorem output_in_stream_order (e : Exit) :
  main toComp stdevAbsdiff cfg t src = Ok e ->
  exists sched,
    output e = render src sched /\
    StronglySorted Z.lt (map fst sched) /\
    Forall (fun p => 0 <= p.1) sched.
Proof.
  unfold main, main_state. intros H.
  destruct (readFrame toComp (boot t src)) as [ok s1] eqn:E1.
  destruct ok.
  - destruct (main_loop toComp stdevAbsdiff cfg (S (length (CAP s1))) (first_frame s1))
      as [s2| |] eqn:E2; try discriminate.
    cbn in H. injection H as <-.
    assert (Hr : reachable toComp stdevAbsdiff cfg t src s2).
    { eapply main_loop_reachable; [|exact E2]. apply reach_first. exact E1. }
    apply reachable_in_order in Hr
      as (H0 & Hcap & Htemp & Hat & sched & Hvid & Hpos & Hsort & Hle).
    exists (sched ++ map entry (buffer s2)).
    cbn [output VIDEO set_buffer buffer set_FINISHED].
    rewrite (VIDEO_flush src) by exact Hat. cbn [VIDEO set_FINISHED].
    split; [rewrite render_app, Hvid; reflexivity|].
    rewrite map_app, map_map. cbn [entry fst].
    split; [exact Hsort|].
    apply Forall_app. split; [exact Hpos|].
    rewrite Forall_fmap. eapply Forall_impl; [exact Hat|]. intros f [Hf _]. exact Hf.
  - cbn in H. injection H as <-.
    unfold readFrame in E1. destruct (Mat_empty _); [|discriminate].
    injection E1 as <-. exists []. repeat split; constructor.
Qed.

End Order.

(** ** The start of [main] *)

Lemma digits2_pos_bound (m : positive) : Zpos m < 2 ^ Zpos (digits2_pos m).
Proof.
  induction m as [m IH|m IH|]; cbn [digits2_pos]; [| |reflexivity];
    rewrite Pos2Z.inj_succ, Z.pow_succ_r by lia; lia.
Qed.

(** A [double] that is not at or below zero converts, if it converts, to an
    [int] that is not negative. *)
Lemma double_to_int_nonneg (x : float) z :
  (x <=? 0)%float = false -> double_to_int x = Some z -> 0 <= z < 2 ^ 31.
Proof.
  intros Hle H. unfold double_to_int in H. rewrite leb_spec in Hle.
  change (Prim2SF 0) with (S754_zero false) in Hle.
  destruct (Prim2SF x) as [sg|sg| |sg m e]; try discriminate.
  destruct sg; [discriminate Hle|].
  cbv zeta in H.
  destruct ((- 2 ^ 31 <=? _) && _) eqn:E; [|discriminate].
  injection H as <-. apply andb_true_iff in E as [_ E2]. apply Z.ltb_lt in E2.
  split; [|exact E2].
  destruct (0 <=? e) eqn:Ee.
  - apply Z.leb_le in Ee. pose proof (Z.pow_pos_nonneg 2 e ltac:(lia) Ee). nia.
  - apply Z.div_pos; [lia|]. apply Z.pow_pos_nonneg; [lia|].
    apply Z.leb_gt in Ee. lia.
Qed.

(** A [double] strictly between zero and one converts to zero. *)
Lemma double_to_int_fraction (x : float) :
  (0 <? x)%float = true -> (x <? 1)%float = true -> double_to_int x = Some 0.
Proof.
  intros H0 H1. rewrite ltb_spec in H0, H1.
  change (Prim2SF 0) with (S754_zero false) in H0.
  change (Prim2SF 1) with (S754_finite false 4503599627370496 (-52)) in H1.
  pose proof (Prim2SF_valid x) as Hv. unfold double_to_int.
  destruct (Prim2SF x) as [sg|sg| |sg m e]; try discriminate.
  { destruct sg; discriminate. }
  destruct sg; [discriminate H0|]. clear H0.
  cbn in Hv. unfold bounded, canonical_mantissa, fexp in Hv.
  apply andb_true_iff in Hv as [Hc _]. apply Z.eqb_eq in Hc.
  unfold SpecFloat.emin, prec, emax in Hc.
  pose proof (digits2_pos_bound m) as Hd.
  assert (Hm : Zpos m < 2 ^ 53).
  { eapply Z.lt_le_trans; [exact Hd|]. apply Z.pow_le_mono_r; lia. }
  unfold SFltb, SFcompare in H1.
  assert (Hsmall : e < 0 /\ Zpos m < 2 ^ (- e)).
  { destruct (e ?= -52) eqn:Ecmp; [| |discriminate H1].
    - apply Z.compare_eq in Ecmp. rewrite Ecmp. split; [lia|].
      change (- -52) with 52.
      destruct (PosDef.Pos.compare_cont Eq m 4503599627370496) eqn:Ec;
        try discriminate H1.
      assert (E52 : 2 ^ 52 = Z.pos 4503599627370496) by (vm_compute; reflexivity).
      rewrite E52. apply Pos2Z.pos_lt_pos. exact Ec.
    - rewrite Z.compare_lt_iff in Ecmp. split; [lia|].
      eapply Z.lt_le_trans; [exact Hm|].
      apply Z.pow_le_mono_r; lia. }
  destruct Hsmall as [He Hlt]. cbv zeta.
  destruct (0 <=? e) eqn:Ee; [apply Z.leb_le in Ee; lia|].
  rewrite Z.div_small by lia. reflexivity.
Qed.

Lemma ltb_pos_not_leb (x : float) :
  (0 <? x)%float = true -> (x <=? 0)%float = false.
Proof.
  rewrite ltb_spec, leb_spec.
  change (Prim2SF 0) with (S754_zero false).
  destruct (Prim2SF x) as [sg|sg| |sg m e]; try discriminate.
  - destruct sg; [discriminate|reflexivity].
  - destruct sg; [discriminate|reflexivity].
Qed.

Lemma list_pair_ind {A} (P : list A -> Prop) :
  P [] -> (forall a, P [a]) -> (forall a b l, P l -> P (a :: b :: l)) ->
  forall l, P l.
Proof.
  intros H0 H1 H2 l. enough (P l /\ forall a, P (a :: l)) as [H _] by exact H.
  induction l as [|b l [IH1 IH2]]; [split; [exact H0|exact H1]|].
  split; [apply IH2|]. intros a. apply H2. exact IH1.
Qed.

Lemma options_loop_pair scan arg text rest val o :
  Args.options_loop scan (arg :: text :: rest) val o =
    match (match scan text with Some x => Some x | None => val end) with
    | None => Undefined
    | Some x =>
        if (x <=? 0)%float
        then Args.options_loop scan rest (Some x) o
        else o' ← Args.assign arg x o; Args.options_loop scan rest (Some x) o'
    end.
Proof.
  cbn [Args.options_loop]. destruct (scan text); [reflexivity|].
  destruct val; reflexivity.
Qed.

Lemma assign_range arg x o o' :
  (x <=? 0)%float = false -> Args.assign arg x o = Ok o' ->
  Args.non_negative o -> Args.non_negative o'.
Proof.
  intros Hx H (Hb & Hc & Ha & Hd). unfold Args.assign in H.
  repeat match type of H with
         | context [String.eqb ?a ?b] => destruct (String.eqb a b)
         end;
    try (destruct (double_to_int x) as [z|] eqn:E; [|discriminate H];
         apply double_to_int_nonneg in E; [|exact Hx]);
    injection H as <-; repeat split; cbn; lia.
Qed.

Lemma options_loop_range scan args : forall val o o',
  Args.options_loop scan args val o = Ok o' ->
  Args.non_negative o ->
  Args.non_negative o' /\ Nat.Even (length args).
Proof.
  induction args as [|a|a b l IH] using list_pair_ind; intros val o o' H Ho.
  - injection H as <-. split; [exact Ho|exists 0%nat; reflexivity].
  - discriminate H.
  - rewrite options_loop_pair in H.
    destruct (match scan b with Some x => Some x | None => val end) as [x|];
      [|discriminate H].
    assert (Hev : Nat.Even (length l) -> Nat.Even (length (a :: b :: l))).
    { intros [k Hk]. exists (S k). simpl. lia. }
    destruct (x <=? 0)%float eqn:Ex.
    + destruct (IH _ _ _ H Ho) as [H1 H2]. split; [exact H1|exact (Hev H2)].
    + destruct (Args.assign a x o) as [o1| |] eqn:Ea; try discriminate H.
      cbn in H. pose proof (assign_range _ _ _ _ Ex Ea Ho) as Ho1.
      destruct (IH _ _ _ H Ho1) as [H1 H2]. split; [exact H1|exact (Hev H2)].
Qed.

(** X10.  The options [main] goes on with are never negative: when the
    command line is read through, there are the two file names and after them
    an even number of arguments, and [buffer_size], [comparison_scale],
    [adjustment_bound] and [duplicate_count] are [int]s at or above zero. *)
Theorem options_not_negative (scan : String.string -> option float)
    (argv : list String.string) (inp out : String.string) (o : Args.options) :
  Args.arguments scan argv = Ok (Args.Run inp out o) ->
  0 <= Args.buffer_size o < 2 ^ 31 /\
  0 <= Args.comparison_scale o < 2 ^ 31 /\
  0 <= Args.adjustment_bound o < 2 ^ 31 /\
  0 <= Args.duplicate_count o < 2 ^ 31 /\
  exists prog rest,
    argv = prog :: inp :: out :: rest /\ Nat.Even (length rest).
Proof.
  intros H. destruct argv as [|prog [|i [|ou rest]]]; try discriminate H.
  unfold Args.arguments in H.
  destruct (Args.options_loop scan rest None Args.defaults) as [o1| |] eqn:E;
    try discriminate H.
  cbn in H. injection H as <- <- <-.
  apply options_loop_range in E as [(Hb & Hc & Ha & Hd) Hev].
  - split; [exact Hb|]. split; [exact Hc|]. split; [exact Ha|].
    split; [exact Hd|]. exists prog, rest. split; [reflexivity|exact Hev].
  - repeat split; cbn; lia.
Qed.

Import String.StringSyntax.
Local Open Scope string_scope.

Lemma options_loop_app scan a name text x : forall val o o1,
  scan text = Some x ->
  Args.options_loop scan a val o = Ok o1 ->
  Args.options_loop scan (a ++ [name; text]) val o =
    Args.options_loop scan [name; text] None o1.
Proof.
  induction a as [|c|c d l IH] using list_pair_ind; intros val o o1 Hs H.
  - injection H as <-. cbn [app]. rewrite !options_loop_pair, Hs. reflexivity.
  - discriminate H.
  - cbn [app]. rewrite options_loop_pair in *.
    destruct (match scan d with Some y => Some y | None => val end) as [y|];
      [|discriminate H].
    destruct (y <=? 0)%float; [exact (IH _ _ _ Hs H)|].
    destruct (Args.assign c y o) as [o2| |]; try discriminate H.
    cbn in *. exact (IH _ _ _ Hs H).
Qed.

(** X11.  A value strictly between 0 and 1 passes the check for positive
    values and sets an [int] option to zero: added to a command line that is
    read through, each of [-buffer_size], [-comparison_scale],
    [-adjustment_bound] and [-duplicate_count] with such a value leaves the
    option at 0, the others as they were; and with [comparison_scale] at 0 the
    division for the comparison size is undefined. *)
Theorem fraction_sets_zero (scan : String.string -> option float)
    (prog inp out text : String.string) (rest : list String.string)
    (x : float) (o : Args.options) :
  Args.arguments scan (prog :: inp :: out :: rest) = Ok (Args.Run inp out o) ->
  scan text = Some x ->
  (0 <? x)%float = true -> (x <? 1)%float = true ->
  let run name :=
    Args.arguments scan (prog :: inp :: out :: rest ++ [name; text]) in
  run "-buffer_size" =
    Ok (Args.Run inp out
          (Args.mkOptions 0 (Args.comparison_scale o) (Args.adjustment_bound o)
             (Args.duplicate_count o) (Args.threshold_strict o)
             (Args.threshold_relaxed o))) /\
  run "-comparison_scale" =
    Ok (Args.Run inp out
          (Args.mkOptions (Args.buffer_size o) 0 (Args.adjustment_bound o)
             (Args.duplicate_count o) (Args.threshold_strict o)
             (Args.threshold_relaxed o))) /\
  run "-adjustment_bound" =
    Ok (Args.Run inp out
          (Args.mkOptions (Args.buffer_size o) (Args.comparison_scale o) 0
             (Args.duplicate_count o) (Args.threshold_strict o)
             (Args.threshold_relaxed o))) /\
  run "-duplicate_count" =
    Ok (Args.Run inp out
          (Args.mkOptions (Args.buffer_size o) (Args.comparison_scale o)
             (Args.adjustment_bound o) 0 (Args.threshold_strict o)
             (Args.threshold_relaxed o))) /\
  forall frame_size, comparison_size frame_size 0 = None.
Proof.
  intros H Hs H0 H1 run. unfold Args.arguments in H.
  destruct (Args.options_loop scan rest None Args.defaults) as [o1| |] eqn:E;
    try discriminate H.
  cbn in H. injection H as <-.
  pose proof (ltb_pos_not_leb x H0) as Hle.
  pose proof (double_to_int_fraction x H0 H1) as Hz.
  assert (Hrun : forall name,
    run name = o' ← Args.assign name x o1; Ok (Args.Run inp out o')).
  { intros name. unfold run, Args.arguments.
    rewrite (options_loop_app scan rest name text x None _ o1 Hs E).
    rewrite options_loop_pair, Hs, Hle.
    destruct (Args.assign name x o1); reflexivity. }
  rewrite !Hrun. unfold Args.assign. rewrite Hz.
  repeat split.
Qed.

Lemma assign_other arg x o o' :
  Args.assign arg x o = Ok o' ->
  (arg <> "-buffer_size" -> Args.buffer_size o' = Args.buffer_size o) /\
  (arg <> "-comparison_scale" ->
   Args.comparison_scale o' = Args.comparison_scale o) /\
  (arg <> "-adjustment_bound" ->
   Args.adjustment_bound o' = Args.adjustment_bound o) /\
  (arg <> "-duplicate_count" ->
   Args.duplicate_count o' = Args.duplicate_count o) /\
  (arg <> "-threshold_strict" ->
   Args.threshold_strict o' = Args.threshold_strict o) /\
  (arg <> "-threshold_relaxed" ->
   Args.threshold_relaxed o' = Args.threshold_relaxed o).
Proof.
  intros H. unfold Args.assign in H.
  repeat match type of H with
         | context [String.eqb ?a ?b] =>
             let E := fresh "E" in
             destruct (String.eqb a b) eqn:E;
             [apply String.eqb_eq in E; subst arg|clear E]
         end;
    try (destruct (double_to_int x) as [z|]; [|discriminate H]);
    injection H as <-; repeat split; intros Hn; try reflexivity;
    exfalso; apply Hn; reflexivity.
Qed.

Lemma options_loop_other scan args : forall val o o',
  Args.options_loop scan args val o = Ok o' ->
  let given name := In name (Args.names args) in
  (~ given "-buffer_size" -> Args.buffer_size o' = Args.buffer_size o) /\
  (~ given "-comparison_scale" ->
   Args.comparison_scale o' = Args.comparison_scale o) /\
  (~ given "-adjustment_bound" ->
   Args.adjustment_bound o' = Args.adjustment_bound o) /\
  (~ given "-duplicate_count" ->
   Args.duplicate_count o' = Args.duplicate_count o) /\
  (~ given "-threshold_strict" ->
   Args.threshold_strict o' = Args.threshold_strict o) /\
  (~ given "-threshold_relaxed" ->
   Args.threshold_relaxed o' = Args.threshold_relaxed o).
Proof.
  induction args as [|a|a b l IH] using list_pair_ind; intros val o o' H given.
  - injection H as <-. repeat split.
  - discriminate H.
  - rewrite options_loop_pair in H.
    destruct (match scan b with Some x => Some x | None => val end) as [x|];
      [|discriminate H].
    assert (Hg : forall name, ~ given name ->
                   a <> name /\ ~ In name (Args.names l)).
    { intros name Hn. split; intros Hc; apply Hn; [left; exact Hc|right; exact Hc]. }
    destruct (x <=? 0)%float.
    + destruct (IH _ _ _ H) as (H1 & H2 & H3 & H4 & H5 & H6).
      repeat split; intros Hn; apply Hg in Hn as [_ Hn]; auto.
    + destruct (Args.assign a x o) as [o1| |] eqn:Ea; try discriminate H.
      cbn in H. destruct (assign_other _ _ _ _ Ea) as (A1 & A2 & A3 & A4 & A5 & A6).
      destruct (IH _ _ _ H) as (H1 & H2 & H3 & H4 & H5 & H6).
      repeat split; intros Hn; apply Hg in Hn as [Ha Hn].
      * rewrite H1, A1 by assumption. reflexivity.
      * rewrite H2, A2 by assumption. reflexivity.
      * rewrite H3, A3 by assumption. reflexivity.
      * rewrite H4, A4 by assumption. reflexivity.
      * rewrite H5, A5 by assumption. reflexivity.
      * rewrite H6, A6 by assumption. reflexivity.
Qed.

(** X12.  An option changes under its own name only.  When the command line
    is read through and a name is not among the names given, the option of
    that name has the value it was declared with: 7, 4, 5 and 2 for the four
    [int]s.  Without [-threshold_strict] the threshold is the one the program
    declares, whatever [-threshold_relaxed] says; and without
    [-threshold_relaxed] the relaxed threshold is half the strict one. *)
Theorem option_under_its_name (scan : String.string -> option float)
    (argv : list String.string) (inp out : String.string) (o : Args.options) :
  Args.arguments scan argv = Ok (Args.Run inp out o) ->
  let given name := In name (Args.names (drop 3 argv)) in
  (~ given "-buffer_size" -> Args.buffer_size o = 7) /\
  (~ given "-comparison_scale" -> Args.comparison_scale o = 4) /\
  (~ given "-adjustment_bound" -> Args.adjustment_bound o = 5) /\
  (~ given "-duplicate_count" -> Args.duplicate_count o = 2) /\
  (~ given "-threshold_strict" -> Args.threshold o = default_THRESH) /\
  (~ given "-threshold_relaxed" ->
   relaxed (Args.threshold o) = (0.5 * strict (Args.threshold o))%float).
Proof.
  intros H. cbv zeta.
  destruct argv as [|prog [|i [|ou rest]]]; try discriminate H.
  unfold Args.arguments in H.
  destruct (Args.options_loop scan rest None Args.defaults) as [o1| |] eqn:E;
    try discriminate H.
  cbn in H. injection H as <- <- <-. cbn [drop].
  destruct (options_loop_other _ _ _ _ _ E) as (H1 & H2 & H3 & H4 & H5 & H6).
  split; [exact H1|]. split; [exact H2|]. split; [exact H3|]. split; [exact H4|].
  split; intros Hn; unfold Args.threshold, update_THRESH.
  - rewrite (H5 Hn). reflexivity.
  - rewrite (H6 Hn). destruct (0 <? Args.threshold_strict o1)%float; reflexivity.
Qed.

(** X13.  The four characters the codec code is formatted into are bytes, and
    they hold the code: the first is its lowest byte, the fourth its highest,
    and together they give back the 32 bits of the code. *)
Theorem fourcc_chars_code (fcc : Z) :
  let '(c1, c2, c3, c4) := fourcc_chars fcc in
  0 <= c1 < 256 /\ 0 <= c2 < 256 /\ 0 <= c3 < 256 /\ 0 <= c4 < 256 /\
  c1 + c2 * 2 ^ 8 + c3 * 2 ^ 16 + c4 * 2 ^ 24 = fcc mod 2 ^ 32.
Proof.
  unfold fourcc_chars.
  change 255 with (Z.ones 8). rewrite !Z.land_ones, !Z.shiftr_div_pow2 by lia.
  change (2 ^ 8) with 256. change (2 ^ 16) with 65536.
  change (2 ^ 24) with 16777216. change (2 ^ 32) with 4294967296.
  repeat split; try (apply Z.mod_pos_bound; lia).
  Z.div_mod_to_equations. lia.
Qed.

(** ** The theorems of this part at concrete states *)

Lemma scenarioE_reachable :
  reachable sample_toComp sample_stdev (mkConfig 2 5 2) default_THRESH srcE scenarioE.
Proof.
  apply (fill_n_reachable _ _ _ _ _ 4 (started sample_toComp default_THRESH srcE)).
  - apply started_reachable. reflexivity.
  - vm_compute. reflexivity.
Qed.

Lemma drift_add_witness :
  exists l',
    correcting (mkConfig 3 5 2) (set_DRIFT (-6) scenarioB)
      = Ok (set_DRIFT (-5) (set_buffer l' (set_DRIFT (-6) scenarioB))) /\
    map count l' = [2; 2; 2].
Proof.
  destruct (drift_add (mkConfig 3 5 2) (set_DRIFT (-6) scenarioB)
              ltac:(simpl; lia) ltac:(simpl; lia)) as (l' & d' & H & Hs & _).
  vm_compute in Hs. injection Hs as <- <-.
  eexists. split; [exact H|reflexivity].
Defined.

Lemma correcting_balance_witness :
  exists s', correcting default_Config scenarioC = Ok s' /\
    total (buffer s') - DRIFT s' = 4.
Proof.
  destruct (correcting default_Config scenarioC) as [s'| |] eqn:E;
    [|vm_compute in E; discriminate E..].
  exists s'. split; [reflexivity|].
  rewrite (correcting_balance default_Config scenarioC s' E). reflexivity.
Defined.

Lemma correcting_only_counts_witness :
  exists s', correcting (mkConfig 3 5 2) scenarioB = Ok s' /\
    map index (buffer s') = [0; 2; 3] /\ VIDEO s' = [] /\ READ_INDEX s' = 4.
Proof.
  destruct (correcting (mkConfig 3 5 2) scenarioB) as [s'| |] eqn:E;
    [|vm_compute in E; discriminate E..].
  exists s'.
  destruct (correcting_only_counts (mkConfig 3 5 2) scenarioB s' E)
    as (Hb & _ & Hv & _ & _ & Hr & _).
  split; [reflexivity|]. split; [|split; [exact Hv|exact Hr]].
  change [0; 2; 3] with (map index (buffer scenarioB)).
  induction Hb as [|f f' l l' (_ & _ & _ & Hi) _ IH]; [reflexivity|].
  cbn [map]. rewrite Hi, IH. reflexivity.
Defined.

Lemma correcting_defined_while_stream_lasts_witness :
  Z.of_nat (length (buffer scenarioE)) = 2 /\
  exists s', correcting (mkConfig 2 5 2) scenarioE = Ok s'.
Proof.
  destruct (correcting_defined_while_stream_lasts sample_toComp sample_stdev
              (mkConfig 2 5 2) default_THRESH srcE scenarioE
              ltac:(simpl; lia) scenarioE_reachable eq_refl eq_refl)
    as (H1 & _ & H3).
  split; [exact H1|exact H3].
Defined.

Lemma threshold_settings_kept_witness :
  strict (THRESH scenarioD) = 0.5%float /\
  relaxed (THRESH scenarioD) = 0.25%float.
Proof.
  destruct (threshold_settings_kept sample_toComp sample_stdev default_Config
              default_THRESH srcD scenarioD scenarioD_reachable) as (H1 & H2 & _).
  split; [exact H1|exact H2].
Defined.

Lemma buffer_in_stream_order_witness :
  StronglySorted Z.lt (map index (buffer scenarioD)) /\
  tempframe scenarioD = frame_at srcD (READ_INDEX scenarioD).
Proof.
  destruct (buffer_in_stream_order sample_toComp sample_stdev default_Config
              default_THRESH srcD scenarioD scenarioD_reachable) as (_ & H2 & H3).
  split; [exact H2|exact H3].
Defined.

Lemma output_in_stream_order_witness :
  exists e sched,
    main sample_toComp sample_stdev (mkConfig 2 5 2) default_THRESH srcE = Ok e /\
    output e = render srcE sched /\
    StronglySorted Z.lt (map fst sched).
Proof.
  destruct (main sample_toComp sample_stdev (mkConfig 2 5 2) default_THRESH srcE)
    as [e| |] eqn:E; [|vm_compute in E; discriminate E..].
  destruct (output_in_stream_order sample_toComp sample_stdev (mkConfig 2 5 2)
              default_THRESH srcE e E) as (sched & H2 & H3 & _).
  exists e, sched. split; [reflexivity|]. split; [exact H2|exact H3].
Defined.

Lemma options_not_negative_witness :
  exists o,
    Args.arguments Args.sample_scan
      ["framefixer"; "in.avi"; "out.avi"; "-buffer_size"; "9"]
      = Ok (Args.Run "in.avi" "out.avi" o) /\
    0 <= Args.buffer_size o < 2 ^ 31.
Proof.
  eexists. split; [vm_compute; reflexivity|].
  destruct (options_not_negative Args.sample_scan
              ["framefixer"; "in.avi"; "out.avi"; "-buffer_size"; "9"]
              "in.avi" "out.avi" _ ltac:(vm_compute; reflexivity)) as (H & _).
  exact H.
Defined.

Lemma fraction_sets_zero_witness :
  Args.arguments Args.sample_scan
    ["framefixer"; "in.avi"; "out.avi"; "-comparison_scale"; "0.5"]
    = Ok (Args.Run "in.avi" "out.avi"
            (Args.mkOptions 7 0 5 2 (-1)%float (-1)%float)).
Proof.
  destruct (fraction_sets_zero Args.sample_scan "framefixer" "in.avi" "out.avi"
              "0.5" [] 0.5%float Args.defaults eq_refl eq_refl eq_refl eq_refl)
    as (_ & H & _).
  exact H.
Defined.

Lemma option_under_its_name_witness :
  exists o,
    Args.arguments Args.sample_scan
      ["framefixer"; "in.avi"; "out.avi"; "-threshold_relaxed"; "0.5"]
      = Ok (Args.Run "in.avi" "out.avi" o) /\
    Args.threshold o = default_THRESH.
Proof.
  eexists. split; [vm_compute; reflexivity|].
  destruct (option_under_its_name Args.sample_scan
              ["framefixer"; "in.avi"; "out.avi"; "-threshold_relaxed"; "0.5"]
              "in.avi" "out.avi" _ ltac:(vm_compute; reflexivity))
    as (_ & _ & _ & _ & H & _).
  apply H. cbn. intros [Hc|[]]. discriminate Hc.
Defined.

(** ** A run whose buffer filled before the stream ended *)

Section Returns.

Variable toComp : Mat -> Mat.
Variable stdevAbsdiff : Mat -> Mat -> float.
Variable cfg : Config.
Hypothesis Hsize : 1 <= buffer_size cfg.






Variable t : Threshold.
Variable src : list Mat.


End Returns.


(** ** The round in which the stream ends *)

Section LastRound.

Variable toComp : Mat -> Mat.
Variable stdevAbsdiff : Mat -> Mat -> float.
Variable cfg : Config.

(** With a record at position [buffer_size / 2], the drift check, the
    correction and the eviction are defined, and leave [FINISHED] as it is. *)
Lemma round_middle_inside (s : State) :
  (Z.to_nat (Z.quot (buffer_size cfg) 2) < length (buffer s))%nat ->
  exists s',
    (s2 ← drift_check cfg s; s3 ← correcting cfg s2; evict s3) = Ok s' /\
    FINISHED s' = FINISHED s.
Proof.
  intros Hin.
  assert (Hd : exists s2, drift_check cfg s = Ok s2).
  { unfold drift_check. cbn. destruct (_ <=? _); [|eexists; reflexivity].
    destruct (buffer s); [simpl in Hin; lia|eexists; reflexivity]. }
  destruct Hd as [s2 E2]. rewrite E2. cbn.
  destruct (drift_check_same _ _ _ E2)
    as [(_ & _ & _ & _ & _ & Hf2 & _) Hb2].
  assert (Hc : exists s3, correcting cfg s2 = Ok s3).
  { rewrite <- Hb2 in Hin. apply lookup_lt_is_Some_2 in Hin.
    destruct Hin as [tofix Hi].
    unfold correcting. destruct (_ <? _).
    - rewrite Hi. eexists. reflexivity.
    - destruct (_ <=? _).
      + destruct (cut_frames _ _ _ _). eexists. reflexivity.
      + destruct (add_frames _ _ _ _). eexists. reflexivity. }
  destruct Hc as [s3 E3]. rewrite E3. cbn.
  destruct (correcting_same _ _ _ E3)
    as [(_ & _ & _ & _ & _ & Hf3 & _) Hl3].
  rewrite Hb2 in Hl3.
  assert (He : exists s', evict s3 = Ok s').
  { unfold evict. destruct (buffer s3); [simpl in Hl3; lia|eexists; reflexivity]. }
  destruct He as [s' E']. exists s'. split; [exact E'|].
  apply evict_eq in E' as (front & rest & _ & ->). cbn.
  rewrite Hf3, Hf2. reflexivity.
Qed.

(** X15.  When the stream ends during the filling of a round and the buffer
    then holds a record at position [buffer_size / 2] ([buffer_size] not
    negative), the round is completed: it evicts the front record, writing it
    at its count, and then enters one more record, with the empty image of the
    read that failed and the count 1.  The main loop stops there, and the
    cleanup writes that record once, last. *)
Theorem end_of_stream_record (s s1 : State) :
  0 <= buffer_size cfg ->
  FINISHED s = false ->
  filling toComp stdevAbsdiff cfg (S (length (CAP s))) s = Ok s1 ->
  FINISHED s1 = true ->
  (Z.to_nat (Z.quot (buffer_size cfg) 2) < length (buffer s1))%nat ->
  exists s' s3 front rest,
    cycle toComp stdevAbsdiff cfg s = Ok s' /\
    FINISHED s' = true /\
    buffer s3 = front :: rest /\
    evict s3 = Ok s' /\
    VIDEO s' = VIDEO s ++ replicate (Z.to_nat (count front)) (data front) /\
    Mat_empty (tempframe s') = true /\
    buffer s' =
      rest ++ [mkFrame (tempframe s') (compframe s') 1 (stdev s') (READ_INDEX s')] /\
    (forall fuel, main_loop toComp stdevAbsdiff cfg fuel s' = Ok s') /\
    VIDEO (flush (buffer s') s') = VIDEO (flush rest s') ++ [tempframe s'] /\
    WRITE_INDEX (flush (buffer s') s') = WRITE_INDEX (flush rest s') + 1.
Proof.
  intros _ Hfin E1 Hfin1 Hin.
  destruct (round_middle_inside s1 Hin) as (s' & E & Hf').
  assert (Hc : cycle toComp stdevAbsdiff cfg s = Ok s')
    by (unfold cycle; rewrite E1; exact E).
  assert (Hfs : FINISHED s' = true) by (rewrite Hf'; exact Hfin1).
  destruct (end_of_stream_round toComp stdevAbsdiff cfg s s' Hfin Hc Hfs)
    as (s3 & front & rest & H).
  exists s', s3, front, rest.
  split; [exact Hc|]. split; [exact Hfs|exact H].
Qed.

End LastRound.

Lemma end_of_stream_record_witness :
  let cfg := mkConfig 2 5 2 in
  let s := started sample_toComp default_THRESH [frameA; frameA; frameB] in
  (exists s', cycle sample_toComp sample_stdev cfg s = Ok s' /\
     FINISHED s' = true /\
     Mat_empty (tempframe s') = true /\
     exists rest, buffer s' =
       rest ++ [mkFrame (tempframe s') (compframe s') 1 (stdev s') (READ_INDEX s')]) /\
  main sample_toComp sample_stdev cfg default_THRESH [frameA; frameA; frameB]
    = Ok (mkExit 0 [frameA; frameB; frameB; []]).
Proof.
  intros cfg s. split; [|vm_compute; reflexivity].
  destruct (filling sample_toComp sample_stdev cfg (S (length (CAP s))) s)
    as [s1| |] eqn:E1; [|vm_compute in E1; discriminate E1..].
  assert (Hs1 : FINISHED s1 = true /\
                (Z.to_nat (Z.quot (buffer_size cfg) 2) < length (buffer s1))%nat).
  { vm_compute in E1. injection E1 as <-. split; [reflexivity|vm_compute; lia]. }
  destruct Hs1 as [Hfin1 Hin].
  destruct (end_of_stream_record sample_toComp sample_stdev cfg s s1
              ltac:(simpl; lia) eq_refl E1 Hfin1 Hin)
    as (s' & s3 & front & rest & Hc & Hf & _ & _ & _ & He & Hb & _).
  exists s'. split; [exact Hc|]. split; [exact Hf|]. split; [exact He|].
  exists rest. exact Hb.
Defined.
